(** * ISO-9000 landing page ([src/App.tsx]): a shallow embedding

    The page is a single React module.  Its components are embedded as
    Rocq functions and small transition systems:

    - numbers of the page (JavaScript doubles) are idealised as rationals
      ([Q]) where the code computes with them, and as reals ([R]) where a
      property speaks about a limit in time;
    - component state ([useState]) is a record, an event handler is a
      transition, and the browser registries a handler is subscribed to
      (interval timers, window listeners) are explicit lists;
    - [Math.random] is a stream of draws threaded through the render;
    - the primitives imported from [motion/react] ([useTransform],
      [useSpring], tween timelines, [whileInView]) are not part of
      [src/]; each of them is modelled once, in [Module Motion] and
      [Module Spring], and the components only pass their literal
      arguments to it. *)

From Stdlib Require Import List Bool Arith ZArith QArith Qminmax Qround Qabs Lia.
From Stdlib Require Import Reals Qreals Lqa Lra.
From Stdlib Require Import String Ascii DecimalString DecimalN.
Import ListNotations.

Set Warnings "-register-all".

(* ================================================================== *)
(** ** The animation primitives of [motion/react]                      *)
(* ================================================================== *)

Module Motion.

Local Open Scope Q_scope.

(** [a < b] on rationals, as a boolean. *)
Definition Qltb (a b : Q) : bool := negb (Qle_bool b a).

(** Modelled from the spec: [useTransform] is imported from
    [motion/react], which is not under [src/].  The spec calls it a
    piecewise-linear interpolation over fixed breakpoints; the model
    follows the library's [interpolate] (clamping on, linear mixing):
    the input is clamped to the outer breakpoints, the segment holding
    it is found by a left-to-right scan, and the segment's two outputs
    are mixed by the input's progress through the segment. *)
Definition progress (from to value : Q) : Q :=
  if Qeq_bool (to - from) 0 then 1 else (value - from) / (to - from).

Definition mixNumber (from to p : Q) : Q := from + (to - from) * p.

Definition clamp (lo hi v : Q) : Q :=
  if Qltb hi v then hi else if Qltb v lo then lo else v.

(** The scan [for (; i < input.length - 2; i++) if (v < input[i+1]) break]
    followed by the mix over segment [i]. *)
Fixpoint interpolator (input output : list Q) (v : Q) : Q :=
  match input, output with
  | x0 :: ((x1 :: rest) as input'), y0 :: ((y1 :: _) as output') =>
      match rest with
      | [] => mixNumber y0 y1 (progress x0 x1 v)
      | _ :: _ =>
          if Qltb v x1 then mixNumber y0 y1 (progress x0 x1 v)
          else interpolator input' output' v
      end
  | _, y0 :: _ => y0
  | _, [] => 0
  end.

Definition interpolate (input output : list Q) (v : Q) : Q :=
  let inputLength := List.length input in
  if (inputLength =? 1)%nat then nth 0 output 0
  else if ((inputLength =? 2)%nat
           && Qeq_bool (nth 0 output 0) (nth 1 output 0))%bool
  then nth 1 output 0
  else
    let isZeroDeltaRange := Qeq_bool (nth 0 input 0) (nth 1 input 0) in
    let '(input, output) :=
      if Qltb (last input 0) (nth 0 input 0)
      then (rev input, rev output) else (input, output) in
    let v := clamp (nth 0 input 0) (last input 0) v in
    if (isZeroDeltaRange && Qltb v (nth 0 input 0))%bool
    then nth 0 output 0
    else interpolator input output v.

Definition useTransform (value : Q) (inputRange outputRange : list Q) : Q :=
  interpolate inputRange outputRange value.

(** Modelled from the spec: a tween ([initial], [animate],
    [transition={{ duration, delay, ease }}]) is run by [motion/react],
    not by code under [src/].  The value holds at [from] during the
    delay, is mixed through the easing curve for [duration] seconds and
    rests at [to] afterwards.  Times are in seconds, as in the source;
    the easing curve is a parameter. *)
Record transition : Set := { duration : Q; delay : Q }.

Definition finished (tr : transition) (t : Q) : bool :=
  Qle_bool (delay tr + duration tr) t.

Definition tween (ease : Q -> Q) (from to : Q) (tr : transition) (t : Q) : Q :=
  if Qle_bool t (delay tr) then from
  else if finished tr t then to
  else mixNumber from to (ease ((t - delay tr) / duration tr)).

(** The running animation of one mounted element: the time played so
    far and whether [onAnimationComplete] has been delivered. *)
Record animation : Set := { elapsed : Q; completed : bool }.

Definition start : animation := {| elapsed := 0; completed := false |}.

(** One animation frame, [dt] seconds after the previous one.  The
    second component tells whether this frame delivers
    [onAnimationComplete]. *)
Definition frame (tr : transition) (dt : Q) (a : animation) : animation * bool :=
  let e := elapsed a + dt in
  if completed a then ({| elapsed := e; completed := true |}, false)
  else if finished tr e then ({| elapsed := e; completed := true |}, true)
  else ({| elapsed := e; completed := false |}, false).

(** Modelled from the spec: [whileInView] with its [viewport] options
    is implemented by [motion/react].  The element keeps whether it is
    in view, whether it has ever entered, and whether the [whileInView]
    target is the active one; with [once], leaving the viewport after a
    first entry changes nothing else.  The boolean result tells whether
    this update starts the transition towards the [whileInView]
    target. *)
Record viewportOptions : Set := { once : bool; margin : string }.

Record inView : Set :=
  { isInView : bool; hasEnteredView : bool; whileInViewActive : bool }.

Definition notInView : inView :=
  {| isInView := false; hasEnteredView := false; whileInViewActive := false |}.

Definition onIntersectionUpdate (opts : viewportOptions)
           (isIntersecting : bool) (s : inView) : inView * bool :=
  if Bool.eqb (isInView s) isIntersecting then (s, false)
  else if (once opts && negb isIntersecting && hasEnteredView s)%bool
  then ({| isInView := isIntersecting;
           hasEnteredView := hasEnteredView s;
           whileInViewActive := whileInViewActive s |}, false)
  else ({| isInView := isIntersecting;
           hasEnteredView := (isIntersecting || hasEnteredView s)%bool;
           whileInViewActive := isIntersecting |},
        (isIntersecting && negb (whileInViewActive s))%bool).

End Motion.

(* ================================================================== *)
(** ** The spring filter of [motion/react]                              *)
(* ================================================================== *)

Module Spring.

Local Open Scope R_scope.

Section Generator.

Variables stiffness damping mass : R.
Variables origin target initialVelocity : R.

(** Modelled from the spec: [useSpring] is imported from [motion/react],
    which is not under [src/].  The spec describes it as a damped
    second-order (spring) filter that approaches its target; the model
    is the closed-form motion of a spring of the given stiffness,
    damping and mass released at [origin] with velocity
    [initialVelocity] towards [target], in its three regimes, with the
    library's cap on the hyperbolic argument.  Time is real-valued here
    because the property stated of it is a limit. *)
Definition undampedAngularFreq : R := sqrt (stiffness / mass).
Definition dampingRatio : R := damping / (2 * sqrt (stiffness * mass)).
Definition initialDelta : R := target - origin.

Definition underdamped (t : R) : R :=
  let angularFreq :=
    undampedAngularFreq * sqrt (1 - dampingRatio * dampingRatio) in
  target
  - exp (- (dampingRatio * undampedAngularFreq * t))
    * ((initialVelocity + dampingRatio * undampedAngularFreq * initialDelta)
         / angularFreq * sin (angularFreq * t)
       + initialDelta * cos (angularFreq * t)).

Definition criticallyDamped (t : R) : R :=
  target
  - exp (- (undampedAngularFreq * t))
    * (initialDelta
       + (initialVelocity + undampedAngularFreq * initialDelta) * t).

Definition overdamped (t : R) : R :=
  let dampedAngularFreq :=
    undampedAngularFreq * sqrt (dampingRatio * dampingRatio - 1) in
  let envelope := exp (- (dampingRatio * undampedAngularFreq * t)) in
  let freqForT := Rmin (dampedAngularFreq * t) 300 in
  target
  - envelope
    * ((initialVelocity + dampingRatio * undampedAngularFreq * initialDelta)
         * sinh freqForT
       + dampedAngularFreq * initialDelta * cosh freqForT)
    / dampedAngularFreq.

Definition resolveSpring (t : R) : R :=
  if Rlt_dec dampingRatio 1 then underdamped t
  else if Req_dec_T dampingRatio 1 then criticallyDamped t
  else overdamped t.

(** The value shown [t] seconds after the target last changed: the
    spring's position, or the target itself once the library's rest
    test [done] has declared the spring settled. *)
Definition springValue (done : R -> bool) (t : R) : R :=
  if done t then target else resolveSpring t.

End Generator.

(** [f] tends to [l] as time grows without bound. *)
Definition converges_to (f : R -> R) (l : R) : Prop :=
  forall eps : R, 0 < eps ->
    exists T : R, forall t : R, T < t -> Rabs (f t - l) < eps.

End Spring.

(* ================================================================== *)
(** ** [CameraStage]: scroll progress to visual parameters             *)
(* ================================================================== *)

Module CameraStage.

Import Motion.
Local Open Scope Q_scope.

(** [const scale = useTransform(scrollYProgress, [0, 1], [1, 0.8])] and
    its three siblings, as functions of the scroll progress. *)
Definition scale (scrollYProgress : Q) : Q :=
  useTransform scrollYProgress [0; 1] [1; 0.8].
Definition rotate (scrollYProgress : Q) : Q :=
  useTransform scrollYProgress [0; 1] [0; -5].
Definition y (scrollYProgress : Q) : Q :=
  useTransform scrollYProgress [0; 1] [0; -50].
Definition opacity (scrollYProgress : Q) : Q :=
  useTransform scrollYProgress [0; 0.8; 1] [1; 1; 0].

(** [useSpring(scale, { stiffness: 100, damping: 30 })]; the options
    name no mass, and the library's default mass is [1]. *)
Record springOptions : Set := { stiffness : Q; damping : Q }.

Definition springConfig : springOptions :=
  {| stiffness := 100; damping := 30 |}.

Definition defaultMass : Q := 1.

(** The discriminant test of a second-order filter: critical damping
    is [damping^2 = 4 * stiffness * mass]. *)
Definition criticallyDamped (o : springOptions) : Prop :=
  damping o * damping o == 4 * stiffness o * defaultMass.

Definition overDamped (o : springOptions) : Prop :=
  4 * stiffness o * defaultMass < damping o * damping o.

Definition useSpring (source : Q) (o : springOptions)
           (done : R -> bool) (origin initialVelocity : R) (t : R) : R :=
  Spring.springValue (Q2R (stiffness o)) (Q2R (damping o)) (Q2R defaultMass)
                     origin (Q2R source) initialVelocity done t.

(** [springScale] and [springRotate] for a scroll progress held at [p],
    [t] seconds after it was last changed, the spring then being at
    [origin] with velocity [initialVelocity]. *)
Definition springScale (p : Q) := useSpring (scale p) springConfig.
Definition springRotate (p : Q) := useSpring (rotate p) springConfig.

(** [style={{ opacity: useTransform(scrollYProgress, [0, 0.3], [0.15, 0]) }}]
    on the background title behind the stage. *)
Definition titleOpacity (scrollYProgress : Q) : Q :=
  useTransform scrollYProgress [0; 0.3] [0.15; 0].

(** The text blocks and annotations of the stage are given
    [whileInView] without a [viewport] prop, so the library's default
    options apply, with [once] off. *)
Definition blockViewport : viewportOptions :=
  {| once := false; margin := EmptyString |}.

(** One block over a sequence of intersection reports; the result
    counts how often its entrance transition is started. *)
Fixpoint blockRun (reports : list bool) (s : inView) : inView * nat :=
  match reports with
  | [] => (s, O)
  | b :: rest =>
      let '(s1, started) := onIntersectionUpdate blockViewport b s in
      let '(s2, n) := blockRun rest s1 in
      (s2, ((if started then 1 else 0) + n)%nat)
  end.

(** The number of entries in a sequence of reports: reports of being
    in view that follow a state of being out of view. *)
Fixpoint entries (inViewBefore : bool) (reports : list bool) : nat :=
  match reports with
  | [] => O
  | b :: rest =>
      ((if (b && negb inViewBefore)%bool then 1 else 0) + entries b rest)%nat
  end.

End CameraStage.

(* ================================================================== *)
(** ** Rendered markup                                                  *)
(* ================================================================== *)

(** The part of the element tree the properties speak about: an element
    with its class tokens and children, or a child component mounted at
    that place. *)
Inductive node : Set :=
| Elem (tag : string) (className : list string) (children : list node)
| Comp (name : string).

Definition classes (n : node) : list string :=
  match n with Elem _ c _ => c | Comp _ => [] end.

Definition childNodes (n : node) : list node :=
  match n with Elem _ _ k => k | Comp _ => [] end.

Definition hasClass (c : string) (n : node) : bool :=
  existsb (String.eqb c) (classes n).

(* ================================================================== *)
(** ** [FlashIntro]                                                     *)
(* ================================================================== *)

Module FlashIntro.

Import Motion.
Local Open Scope Q_scope.
Local Open Scope string_scope.

(** [initial={{ opacity: 1 }} animate={{ opacity: 0 }}
     transition={{ duration: 1.5, ease: "easeOut", delay: 0.5 }}] *)
Definition initial_opacity : Q := 1.
Definition animate_opacity : Q := 0.
Definition transition : Motion.transition :=
  {| duration := 1.5; delay := 0.5 |}.

Definition className : list string :=
  ["fixed"; "inset-0"; "z-[100]"; "bg-white"; "pointer-events-none";
   "flex"; "items-center"; "justify-center"].

Definition render : node :=
  Elem "motion.div" className
       [Elem "motion.div" []
             [Elem "Zap" ["w-24"; "h-24"; "text-black"; "fill-black"] []]].

(** Opacity of the layer [t] seconds after mount, for the easing curve
    [easeOut]. *)
Definition opacity (easeOut : Q -> Q) (t : Q) : Q :=
  tween easeOut initial_opacity animate_opacity transition t.

(** The mounted layer played over a list of frame intervals; the
    result counts the deliveries of [onAnimationComplete], which the
    component passes on as [onComplete]. *)
Fixpoint play (dts : list Q) (a : animation) : animation * nat :=
  match dts with
  | [] => (a, O)
  | dt :: rest =>
      let '(a1, fired) := frame transition dt a in
      let '(a2, n) := play rest a1 in
      (a2, ((if fired then 1 else 0) + n)%nat)
  end.

Definition onCompleteCalls (dts : list Q) : nat := snd (play dts start).

Fixpoint total (dts : list Q) : Q :=
  match dts with [] => 0 | dt :: rest => dt + total rest end.

(** A running layer is well formed when completion was delivered as
    soon as the fade had run its course. *)
Definition wellFormed (a : animation) : Prop :=
  completed a = false -> elapsed a < 2.

(** The icon inside the layer:
    [initial={{ scale: 0.8, opacity: 0 }} animate={{ scale: 1.2, opacity: 1 }}
     transition={{ duration: 0.4, ease: "easeOut" }}], with no delay. *)
Definition zapTransition : Motion.transition :=
  {| duration := 0.4; delay := 0 |}.

Definition zapOpacity (easeOut : Q -> Q) (t : Q) : Q :=
  tween easeOut 0 1 zapTransition t.

Definition zapScale (easeOut : Q -> Q) (t : Q) : Q :=
  tween easeOut 0.8 1.2 zapTransition t.

End FlashIntro.

(* ================================================================== *)
(** ** [Math.random]                                                    *)
(* ================================================================== *)

(** A render that calls [Math.random] reads successive draws of the
    engine's generator.  The generator is a stream of rationals; a
    computation threads the index of the next draw. *)
Module Random.

Definition source : Type := nat -> Q.

Definition Rand (A : Type) : Type := source -> nat -> A * nat.

Definition ret {A} (a : A) : Rand A := fun _ n => (a, n).

Definition bind {A B} (m : Rand A) (k : A -> Rand B) : Rand B :=
  fun src n => let '(a, n1) := m src n in k a src n1.

Definition random : Rand Q := fun src n => (src n, S n).

Fixpoint mapM {A B} (f : A -> Rand B) (l : list A) : Rand (list B) :=
  match l with
  | [] => ret []
  | a :: rest =>
      bind (f a) (fun b => bind (mapM f rest) (fun bs => ret (b :: bs)))
  end.

Definition run {A} (m : Rand A) (src : source) : A := fst (m src O).

(** Draws of [Math.random] lie in the half-open unit interval. *)
Definition wellFormed (src : source) : Prop :=
  forall n, (0 <= src n /\ src n < 1)%Q.

End Random.

Declare Scope rand_scope.
Delimit Scope rand_scope with rand.
Notation "x <- m ;; k" := (Random.bind m (fun x => k))
  (at level 61, m at next level, right associativity) : rand_scope.

(* ================================================================== *)
(** ** [BackgroundElements]                                             *)
(* ================================================================== *)

Module BackgroundElements.

Import Random.
Local Open Scope Q_scope.

Inductive group : Set := Aperture | Focus | Data.

(** One animated motif.  Positions are percentages (the source builds
    the strings [n + "%"]); [duration] is in seconds. *)
Record motif : Set :=
  { key : group * nat;
    initial_x : Q; initial_y : Q;
    animate_x : list Q; animate_y : list Q;
    duration : Q }.

Definition indices (n : nat) : list nat := seq 0 n.

Definition ofNat (i : nat) : Q := inject_Z (Z.of_nat i).

(** [[...Array(3)].map((_, i) => ...)], the aperture blades. *)
Definition aperture (i : nat) : motif :=
  {| key := (Aperture, i);
     initial_x := ofNat i * 30 + 10;
     initial_y := ofNat i * 20 + 20;
     animate_x := [ofNat i * 30 + 10; ofNat i * 30 + 40];
     animate_y := [ofNat i * 20 + 20; ofNat i * 20 + 50];
     duration := 25 + ofNat i * 5 |}.

(** [[...Array(4)].map((_, i) => ...)], the focus reticles. *)
Definition focus (i : nat) : motif :=
  {| key := (Focus, i);
     initial_x := ofNat i * 25 + 5;
     initial_y := ofNat i * 15 + 10;
     animate_x := [ofNat i * 25 + 5; ofNat i * 25 + 25];
     animate_y := [ofNat i * 15 + 10; ofNat i * 15 + 30];
     duration := 20 + ofNat i * 4 |}.

(** [[...Array(4)].map((_, i) => ...)], the data strings: the side is
    [i % 2 === 0 ? "-10%" : "110%"], the height is
    [Math.random() * 100 + "%"] and the duration is
    [30 + Math.random() * 20], drawn in that order. *)
Definition data (i : nat) : Rand motif :=
  (r_y <- random ;;
   r_d <- random ;;
   ret {| key := (Data, i);
          initial_x := if Nat.eqb (i mod 2) 0 then -10 else 110;
          initial_y := r_y * 100;
          animate_x := [if Nat.eqb (i mod 2) 0 then 110 else -10];
          animate_y := [];
          duration := 30 + r_d * 20 |})%rand.

Definition render : Rand (list motif * list motif * list motif) :=
  (ds <- mapM data (indices 4) ;;
   ret (map aperture (indices 3), map focus (indices 4), ds))%rand.

Definition initialOffset (m : motif) : Q * Q := (initial_x m, initial_y m).

(** All initial offsets of one render, group by group. *)
Definition initialOffsets (src : source) : list (Q * Q) :=
  let '(a, f, d) := run render src in
  map initialOffset a ++ map initialOffset f ++ map initialOffset d.

Definition apertures (src : source) : list motif := fst (fst (run render src)).
Definition reticles (src : source) : list motif := snd (fst (run render src)).
Definition dataStrings (src : source) : list motif := snd (run render src).

(** Two lists of offsets agree, as numbers. *)
Definition sameOffsets (l1 l2 : list (Q * Q)) : Prop :=
  Forall2 (fun a b => fst a == fst b /\ snd a == snd b) l1 l2.


(** Every keyframe of a motif lies on the screen. *)
Definition onScreen (m : motif) : Prop :=
  Forall (fun v => 0 <= v /\ v <= 100) (animate_x m ++ animate_y m).

End BackgroundElements.

(* ================================================================== *)
(** ** [HUD]                                                            *)
(* ================================================================== *)

Module HUD.

Local Open Scope string_scope.
Local Open Scope Z_scope.

(** [Number.prototype.toString] on an integer-valued number and
    [String.prototype.padStart]. *)
Definition toString (n : Z) : string := NilZero.string_of_int (Z.to_int n).

Fixpoint fill (padString cur : string) (n : nat) : string :=
  match n with
  | O => ""
  | S n' =>
      match cur with
      | String c rest => String c (fill padString rest n')
      | EmptyString =>
          match padString with
          | String c rest => String c (fill padString rest n')
          | EmptyString => ""
          end
      end
  end.

Definition padStart (s : string) (targetLength : nat) (padString : string) : string :=
  if (targetLength <=? String.length s)%nat then s
  else fill padString padString (targetLength - String.length s) ++ s.

Record point : Set := { x : Z; y : Z }.

(** The two [useState] cells. *)
Record state : Set := { time : string; coords : point }.

Definition setTime (s : string) (st : state) : state :=
  {| time := s; coords := coords st |}.
Definition setCoords (c : point) (st : state) : state :=
  {| time := time st; coords := c |}.

(** What the top bar prints. *)
Definition posX (st : state) : string :=
  "POS_X: " ++ padStart (toString (x (coords st))) 4 "0".
Definition posY (st : state) : string :=
  "POS_Y: " ++ padStart (toString (y (coords st))) 4 "0".
Definition clock (st : state) : string := time st.

(** The callbacks the effect hands to the browser. *)
Inductive callback : Set := Tick | HandleMouseMove.

Record interval : Set := { timerId : nat; period : Z }.
Record listener : Set := { eventType : string; fn : nat }.

(** The mounted component together with the browser registries it
    subscribes to.  [cleanup] is the closure returned by the effect: it
    holds the timer id and the identity of the [handleMouseMove]
    function created by that run of the effect.  [calls] logs every
    invocation of a callback, most recent first. *)
Record world : Set :=
  { instance : option state;
    cleanup : option (nat * nat);
    intervals : list interval;
    listeners : list listener;
    nextTimer : nat;
    nextFn : nat;
    calls : list callback }.

Definition empty : world :=
  {| instance := None; cleanup := None; intervals := []; listeners := [];
     nextTimer := O; nextFn := O; calls := [] |}.

Definition clearInterval (id : nat) (l : list interval) : list interval :=
  filter (fun i => negb (Nat.eqb (timerId i) id)) l.

Definition sameListener (ty : string) (f : nat) (l : listener) : bool :=
  (String.eqb (eventType l) ty && Nat.eqb (fn l) f)%bool.

Definition addEventListener (ty : string) (f : nat) (l : list listener)
  : list listener :=
  if existsb (sameListener ty f) l then l
  else l ++ [{| eventType := ty; fn := f |}].

Definition removeEventListener (ty : string) (f : nat) (l : list listener)
  : list listener :=
  filter (fun e => negb (sameListener ty f e)) l.

Inductive event : Set :=
| Mount (now : Z)
| Unmount
| IntervalElapsed (id : nat) (now : Z)
| MouseMove (clientX clientY : Z).

Section Clock.

(** [new Date().toLocaleTimeString()] read at instant [now]; the
    format depends on the locale of the browser. *)
Variable toLocaleTimeString : Z -> string.

Definition update (f : state -> state) (cb : callback) (w : world) : world :=
  {| instance := option_map f (instance w);
     cleanup := cleanup w;
     intervals := intervals w;
     listeners := listeners w;
     nextTimer := nextTimer w;
     nextFn := nextFn w;
     calls := cb :: calls w |}.

Definition mount (now : Z) (w : world) : world :=
  match instance w with
  | Some _ => w
  | None =>
      let timer := nextTimer w in
      let handleMouseMove := nextFn w in
      {| instance := Some {| time := toLocaleTimeString now;
                             coords := {| x := 0; y := 0 |} |};
         cleanup := Some (timer, handleMouseMove);
         intervals := {| timerId := timer; period := 1000 |} :: intervals w;
         listeners := addEventListener "mousemove" handleMouseMove (listeners w);
         nextTimer := S timer;
         nextFn := S handleMouseMove;
         calls := calls w |}
  end.

Definition unmount (w : world) : world :=
  match cleanup w with
  | None => w
  | Some (timer, handleMouseMove) =>
      {| instance := None;
         cleanup := None;
         intervals := clearInterval timer (intervals w);
         listeners := removeEventListener "mousemove" handleMouseMove (listeners w);
         nextTimer := nextTimer w;
         nextFn := nextFn w;
         calls := calls w |}
  end.

(** The browser runs the callback of every registered listener of
    the dispatched type, in registration order. *)
Fixpoint dispatch (ty : string) (c : point) (ls : list listener) (w : world)
  : world :=
  match ls with
  | [] => w
  | l :: rest =>
      let w1 := if String.eqb (eventType l) ty
                then update (setCoords c) HandleMouseMove w else w in
      dispatch ty c rest w1
  end.

Definition step (w : world) (e : event) : world :=
  match e with
  | Mount now => mount now w
  | Unmount => unmount w
  | IntervalElapsed id now =>
      if existsb (fun i => Nat.eqb (timerId i) id) (intervals w)
      then update (setTime (toLocaleTimeString now)) Tick w
      else w
  | MouseMove cx cy =>
      dispatch "mousemove" {| x := cx; y := cy |} (listeners w) w
  end.

Definition run (w : world) (es : list event) : world := fold_left step es w.

End Clock.

(** Events that only the browser raises: timers coming due and pointer
    moves. *)
Definition isSignal (e : event) : bool :=
  match e with
  | IntervalElapsed _ _ | MouseMove _ _ => true
  | _ => false
  end.

Definition isMouseMove (e : event) : bool :=
  match e with MouseMove _ _ => true | _ => false end.

(** Coordinates of the most recent pointer move of a trace, [(0,0)]
    when there is none. *)
Definition moveTo (acc : point) (e : event) : point :=
  match e with
  | MouseMove cx cy => {| x := cx; y := cy |}
  | _ => acc
  end.

Definition lastMove (es : list event) : point :=
  fold_left moveTo es {| x := 0; y := 0 |}.

(** The subscriptions of a world match its mount state: a mounted
    component holds exactly one interval of 1000 ms and one
    [mousemove] listener, the ones its cleanup closure names, and an
    unmounted one holds none. *)
Definition subscribed (w : world) : Prop :=
  match instance w, cleanup w with
  | Some _, Some (timer, handleMouseMove) =>
      intervals w = [{| timerId := timer; period := 1000 |}]
      /\ listeners w = [{| eventType := "mousemove"; fn := handleMouseMove |}]
  | None, None => intervals w = [] /\ listeners w = []
  | _, _ => False
  end.

(** The number a string of decimal digits denotes, if it is one. *)
Definition decimalValue (s : string) : option N :=
  option_map N.of_uint (NilEmpty.uint_of_string s).

(** The instant of the most recent expiry of interval [timer] in a
    trace, the mount instant when there is none. *)
Definition tickAt (timer : nat) (acc : Z) (e : event) : Z :=
  match e with
  | IntervalElapsed id now => if Nat.eqb id timer then now else acc
  | _ => acc
  end.

Definition lastTick (timer : nat) (mountedAt : Z) (es : list event) : Z :=
  fold_left (tickAt timer) es mountedAt.

(** The padded field of one coordinate, as [posX] and [posY] print it. *)
Definition field (n : Z) : string := padStart (toString n) 4 "0".

(** Reading a printed field back: leading zeros are skipped, a minus
    sign after them makes the digits that follow negative. *)
Fixpoint dropZeros (s : string) : string :=
  match s with
  | String c rest => if Ascii.eqb c "0" then dropZeros rest else s
  | EmptyString => s
  end.

Definition readField (s : string) : option Z :=
  match dropZeros s with
  | String c rest =>
      if Ascii.eqb c "-"
      then option_map (fun d => Z.opp (Z.of_N (N.of_uint d)))
                      (NilEmpty.uint_of_string rest)
      else option_map Z.of_N (decimalValue s)
  | EmptyString => option_map Z.of_N (decimalValue s)
  end.

End HUD.

(* ================================================================== *)
(** ** [Gallery]                                                        *)
(* ================================================================== *)

Module Gallery.

Import Motion.
Local Open Scope string_scope.
Local Open Scope Q_scope.

Record image : Set :=
  { url : string; title : string; meta : string; size : string; parallax : Q }.

Definition images : list image :=
  [ {| url := "https://images.unsplash.com/photo-1493246507139-91e8fad9978e?auto=format&fit=crop&q=80&w=800";
       title := "Alpine Peak"; meta := "1/2000s f/4.0 ISO 200";
       size := "large"; parallax := -50 |};
    {| url := "https://images.unsplash.com/photo-1464822759023-fed622ff2c3b?auto=format&fit=crop&q=80&w=800";
       title := "Mist Valley"; meta := "1/500s f/2.8 ISO 400";
       size := "small"; parallax := 80 |};
    {| url := "https://images.unsplash.com/photo-1501785888041-af3ef285b470?auto=format&fit=crop&q=80&w=800";
       title := "Azure Lake"; meta := "1/1000s f/5.6 ISO 100";
       size := "small"; parallax := -30 |};
    {| url := "https://images.unsplash.com/photo-1470770841072-f978cf4d019e?auto=format&fit=crop&q=80&w=800";
       title := "Golden Hour"; meta := "1/250s f/1.8 ISO 800";
       size := "large"; parallax := 120 |};
    {| url := "https://images.unsplash.com/photo-1441974231531-c6227db76b6e?auto=format&fit=crop&q=80&w=800";
       title := "Deep Forest"; meta := "1/60s f/8.0 ISO 1600";
       size := "small"; parallax := -60 |};
    {| url := "https://images.unsplash.com/photo-1500382017468-9049fed747ef?auto=format&fit=crop&q=80&w=800";
       title := "Open Field"; meta := "1/4000s f/2.0 ISO 50";
       size := "medium"; parallax := 40 |} ].

Definition yOffset (img : image) (scrollYProgress : Q) : Q :=
  useTransform scrollYProgress [0; 1] [0; parallax img].

(** [initial={{ opacity: 0, scale: 0.95 }}
     whileInView={{ opacity: 1, scale: 1 }}
     viewport={{ once: true, margin: "-10%" }}], the same for every
    card. *)
Record target : Set := { opacity : Q; scale : Q }.

Definition initial : target := {| opacity := 0; scale := 0.95 |}.
Definition whileInView : target := {| opacity := 1; scale := 1 |}.
Definition viewport : viewportOptions := {| once := true; margin := "-10%" |}.

(** The target a card is animated towards. *)
Definition shown (s : inView) : target :=
  if whileInViewActive s then whileInView else initial.

(** One in-view record per card, in the order of [images]. *)
Definition state : Set := list inView.

Definition init : state := map (fun _ => notInView) images.

(** The intersection observer reports card [i] entering
    ([isIntersecting = true]) or leaving the viewport. *)
Record event : Set := { card : nat; isIntersecting : bool }.

(** Cards are updated in place; a report for an index outside the list
    reaches no card.  The boolean tells whether the report starts the
    card's reveal transition. *)
Fixpoint updateCard (opts : viewportOptions) (i : nat) (b : bool) (st : state)
         {struct st} : state * bool :=
  match st, i with
  | [], _ => ([], false)
  | s :: rest, O =>
      let '(s1, started) := onIntersectionUpdate opts b s in (s1 :: rest, started)
  | s :: rest, S i' =>
      let '(rest1, started) := updateCard opts i' b rest in (s :: rest1, started)
  end.

Definition step (opts : viewportOptions) (st : state) (e : event) : state * bool :=
  updateCard opts (card e) (isIntersecting e) st.

(** A whole trace of reports; the result lists, oldest first, the
    cards whose reveal was started. *)
Fixpoint run (opts : viewportOptions) (st : state) (es : list event)
  : state * list nat :=
  match es with
  | [] => (st, [])
  | e :: rest =>
      let '(st1, started) := step opts st e in
      let '(st2, log) := run opts st1 rest in
      (st2, if started then card e :: log else log)
  end.

Definition reveals (opts : viewportOptions) (i : nat) (es : list event) : nat :=
  count_occ Nat.eq_dec (snd (run opts init es)) i.

(** What holds of a card's record under [once]: having entered and
    showing the [whileInView] target are the same thing, and a card in
    view shows it. *)
Definition settled (s : inView) : Prop :=
  hasEnteredView s = whileInViewActive s
  /\ (isInView s = true -> whileInViewActive s = true).

(** The report says that card [i] enters the viewport. *)
Definition entering (i : nat) (e : event) : bool :=
  (Nat.eqb (card e) i && isIntersecting e)%bool.

(** The class tokens of card [i]:
    [cn("group relative", <span by size>, <left margin by i % 3>,
        <top margin by i % 2>)].  The utilities never conflict, so
    merging keeps all of them. *)
Definition cardClass (size : string) (i : nat) : list string :=
  ["group"; "relative";
   if String.eqb size "large" then "md:col-span-8"
   else if String.eqb size "medium" then "md:col-span-6"
   else "md:col-span-4";
   if Nat.eqb (i mod 3) 0 then "md:ml-0"
   else if Nat.eqb (i mod 3) 1 then "md:ml-12"
   else "md:ml-24";
   if negb (Nat.eqb (i mod 2) 0) then "md:-mt-20" else "md:mt-20"]%string.

(** The hover overlay of one card.  [REF_ID] is a rendering in base 36
    of a first draw, which is kept here as the draw itself; [COORD] is
    [Math.floor(Math.random() * 90)] degrees north and
    [Math.floor(Math.random() * 180)] degrees west, drawn in that
    order. *)
Record overlay : Set := { refDraw : Q; north : Z; west : Z }.

Definition cardOverlay : Random.Rand overlay :=
  (r <- Random.random ;;
   a <- Random.random ;;
   b <- Random.random ;;
   Random.ret {| refDraw := r;
                 north := Qfloor (a * 90);
                 west := Qfloor (b * 180) |})%rand.

(** The overlays of one render, card by card in the order of [images]. *)
Definition overlays : Random.Rand (list overlay) :=
  Random.mapM (fun _ : image => cardOverlay) images.

(** A [COORD] that names a latitude below 90 and a longitude below
    180. *)
Definition inRange (o : overlay) : Prop :=
  (0 <= north o <= 89)%Z /\ (0 <= west o <= 179)%Z.

End Gallery.

(* ================================================================== *)
(** ** [App], the root                                                  *)
(* ================================================================== *)

Module App.

Import Motion.
Local Open Scope string_scope.

(** [cn(...)] joins class names; none of its uses here has conflicting
    utilities to merge, so it is the list of its arguments. *)
Definition cn (inputs : list string) : list string := inputs.

(** The page: the root's [isLoaded] cell, the animation of the intro
    layer while it is mounted, and the children that keep state of
    their own. *)
Record state : Type :=
  { isLoaded : bool;
    intro : animation;
    hud : HUD.world;
    gallery : Gallery.state;
    scrollYProgress : Q }.

Definition setIsLoaded (b : bool) (s : state) : state :=
  {| isLoaded := b; intro := intro s; hud := hud s;
     gallery := gallery s; scrollYProgress := scrollYProgress s |}.

(** [{!isLoaded && <FlashIntro onComplete={() => setIsLoaded(true)} />}] *)
Definition introMounted (s : state) : bool := negb (isLoaded s).
Definition onComplete (s : state) : state := setIsLoaded true s.

Definition content (s : state) : node :=
  Elem "div"
       (cn ["transition-opacity"; "duration-1000";
            if isLoaded s then "opacity-100" else "opacity-0"])
       [Comp "CameraStage"; Comp "AboutSection"; Comp "SpecsSection";
        Comp "Gallery"; Comp "ContactSection";
        Elem "footer" ["pt-0"; "pb-20"; "px-6"; "border-t"; "border-white/5"] []].

Definition render (s : state) : node :=
  Elem "main"
       ["relative"; "min-h-screen"; "bg-black"; "text-white"; "font-sans";
        "selection:bg-accent"; "selection:text-black"; "overflow-x-hidden"]
       ((if introMounted s then [FlashIntro.render] else [])
          ++ [Elem "div" ["fixed"; "inset-0"; "tech-grid"; "opacity-20";
                          "pointer-events-none"] [];
              Comp "BackgroundElements";
              Elem "div" ["noise-overlay"] [];
              Comp "HUD";
              content s]).

Inductive event : Set :=
| AnimationFrame (dt : Q)
| Scroll (progress : Q)
| Hud (e : HUD.event)
| Viewport (e : Gallery.event).

Section Clock.

Variable toLocaleTimeString : Z -> string.

(** The page right after the root is mounted at instant [now]. *)
Definition mount (now : Z) : state :=
  {| isLoaded := false;
     intro := start;
     hud := HUD.mount toLocaleTimeString now HUD.empty;
     gallery := Gallery.init;
     scrollYProgress := 0 |}.

(** One event of the page.  The boolean tells whether the event made
    [FlashIntro] call its [onComplete]. *)
Definition step (s : state) (e : event) : state * bool :=
  match e with
  | AnimationFrame dt =>
      if introMounted s then
        let '(a, fired) := frame FlashIntro.transition dt (intro s) in
        let s1 := {| isLoaded := isLoaded s; intro := a; hud := hud s;
                     gallery := gallery s;
                     scrollYProgress := scrollYProgress s |} in
        (if fired then onComplete s1 else s1, fired)
      else (s, false)
  | Scroll p =>
      ({| isLoaded := isLoaded s; intro := intro s; hud := hud s;
          gallery := gallery s; scrollYProgress := p |}, false)
  | Hud e =>
      ({| isLoaded := isLoaded s; intro := intro s;
          hud := HUD.step toLocaleTimeString (hud s) e;
          gallery := gallery s;
          scrollYProgress := scrollYProgress s |}, false)
  | Viewport e =>
      ({| isLoaded := isLoaded s; intro := intro s; hud := hud s;
          gallery := fst (Gallery.step Gallery.viewport (gallery s) e);
          scrollYProgress := scrollYProgress s |}, false)
  end.

(** A trace of events.  Besides the final page it returns how often
    [isLoaded] went from [false] to [true], and how often
    [onComplete] was called. *)
Fixpoint run (s : state) (es : list event) : state * (nat * nat) :=
  match es with
  | [] => (s, (O, O))
  | e :: rest =>
      let '(s1, fired) := step s e in
      let '(s2, (rises, fires)) := run s1 rest in
      (s2, ((if (negb (isLoaded s) && isLoaded s1)%bool then 1 else 0) + rises,
            (if fired then 1 else 0) + fires)%nat)
  end.

Definition final (s : state) (es : list event) : state := fst (run s es).
Definition rises (s : state) (es : list event) : nat := fst (snd (run s es)).
Definition fires (s : state) (es : list event) : nat := snd (snd (run s es)).

End Clock.

(** Seconds of animation time in a trace. *)
Fixpoint animationTime (es : list event) : Q :=
  match es with
  | [] => 0
  | AnimationFrame dt :: rest => (dt + animationTime rest)%Q
  | _ :: rest => animationTime rest
  end.

Definition nonNegativeFrames (es : list event) : Prop :=
  Forall (fun e => match e with AnimationFrame dt => (0 <= dt)%Q | _ => True end) es.

(** The flag and the delivery of the intro's completion go together. *)
Definition coherent (s : state) : Prop :=
  isLoaded s = completed (intro s)
  /\ (isLoaded s = false -> (elapsed (intro s) < 2)%Q).

End App.

(* ================================================================== *)
(** ** Sample inputs                                                    *)
(* ================================================================== *)

Module Samples.

Local Open Scope string_scope.

(** A 24-hour [HH:MM:SS] rendering of an instant given in
    milliseconds, as a stand-in for one locale's
    [toLocaleTimeString]. *)
Definition digit (d : Z) : ascii := ascii_of_nat (48 + Z.to_nat d).

Definition twoDigits (n : Z) : string :=
  String (digit ((n / 10) mod 10)) (String (digit (n mod 10)) "").

Definition clock24 (now : Z) : string :=
  let s := (now / 1000)%Z in
  twoDigits ((s / 3600) mod 24) ++ ":" ++ twoDigits ((s / 60) mod 60)
            ++ ":" ++ twoDigits (s mod 60).

Definition isClock24 (s : string) : Prop :=
  match s with
  | String _ (String _ (String ":" (String _ (String _ (String ":"
      (String _ (String _ EmptyString))))))) => True
  | _ => False
  end.

(** Two generators for [Math.random]. *)
Definition allZero : Random.source := fun _ => 0.
Definition allHalf : Random.source := fun _ => 1 # 2.

(** A page trace: pointer, frames, scroll and a viewport entry. *)
Definition trace : list App.event :=
  [ App.Hud (HUD.MouseMove 512 300);
    App.AnimationFrame 1;
    App.Scroll 0.5;
    App.AnimationFrame 1.5;
    App.Viewport {| Gallery.card := 0; Gallery.isIntersecting := true |};
    App.AnimationFrame 3 ].

(** Display traces: pointer moves around a timer expiry; a mounted
    display; what the browser raises after it is gone. *)
Definition moves : list HUD.event :=
  [HUD.MouseMove 10 20; HUD.IntervalElapsed 0 1000; HUD.MouseMove 512 300].
Definition mounted : list HUD.event :=
  [HUD.Mount 0; HUD.MouseMove 512 300; HUD.IntervalElapsed 0 1000].
Definition later : list HUD.event :=
  [HUD.IntervalElapsed 0 2000; HUD.MouseMove 1 1; HUD.IntervalElapsed 0 3000].

(** The third card scrolled into view, out of it and in again. *)
Definition inAndOut : list Gallery.event :=
  [ {| Gallery.card := 2; Gallery.isIntersecting := true |};
    {| Gallery.card := 2; Gallery.isIntersecting := false |};
    {| Gallery.card := 2; Gallery.isIntersecting := true |} ].

End Samples.

(* ================================================================== *)
(** * Properties                                                        *)
(* ================================================================== *)

(** ** Interpolation *)

Module MotionFacts.

Import Motion.
Local Open Scope Q_scope.

Lemma Qltb_lt a b : Qltb a b = true <-> a < b.
Proof.
  unfold Qltb. rewrite negb_true_iff. split; intro H.
  - apply Qnot_le_lt. intro L. apply Qle_bool_iff in L. congruence.
  - destruct (Qle_bool b a) eqn:E; [|reflexivity].
    apply Qle_bool_iff in E. apply Qle_not_lt in E. contradiction.
Qed.

Lemma Qltb_ge a b : Qltb a b = false <-> b <= a.
Proof. unfold Qltb. rewrite negb_false_iff. apply Qle_bool_iff. Qed.

Lemma Qltb_spec a b : reflect (a < b) (Qltb a b).
Proof.
  destruct (Qltb a b) eqn:E; constructor.
  - now apply Qltb_lt.
  - apply Qltb_ge in E. now apply Qle_not_lt.
Qed.

Lemma Qle_bool_spec a b : reflect (a <= b) (Qle_bool a b).
Proof.
  destruct (Qle_bool a b) eqn:E; constructor.
  - now apply Qle_bool_iff.
  - intro H. apply Qle_bool_iff in H. congruence.
Qed.

Lemma clamp_inside lo hi v : lo <= v -> v <= hi -> clamp lo hi v = v.
Proof.
  intros H1 H2. unfold clamp.
  destruct (Qltb_spec hi v); [Lqa.lra|].
  destruct (Qltb_spec v lo); [Lqa.lra|]. reflexivity.
Qed.

Lemma progress_eq a b v : a < b -> progress a b v == (v - a) / (b - a).
Proof.
  intros H. unfold progress.
  destruct (Qeq_bool (b - a) 0) eqn:E; [|reflexivity].
  apply Qeq_bool_iff in E. Lqa.lra.
Qed.

(** Two breakpoints: one linear piece. *)
Lemma interpolate2 x0 x1 y0 y1 v :
  x0 < x1 -> x0 <= v -> v <= x1 ->
  interpolate [x0; x1] [y0; y1] v
  == y0 + (y1 - y0) * ((v - x0) / (x1 - x0)).
Proof.
  intros Hx Hlo Hhi. unfold interpolate.
  cbn [List.length Nat.eqb nth last rev app andb].
  destruct (Qeq_bool y0 y1) eqn:Ey.
  - apply Qeq_bool_iff in Ey. rewrite Ey. ring.
  - destruct (Qltb_spec x1 x0); [Lqa.lra|].
    cbn [nth last]. rewrite clamp_inside by assumption.
    destruct (Qeq_bool x0 x1) eqn:Ex.
    { apply Qeq_bool_iff in Ex. Lqa.lra. }
    cbn [andb interpolator]. unfold mixNumber.
    rewrite progress_eq by assumption. reflexivity.
Qed.

(** Three breakpoints: the piece left of the middle one... *)
Lemma interpolate3_left x0 x1 x2 y0 y1 y2 v :
  x0 < x1 -> x1 < x2 -> x0 <= v -> v < x1 ->
  interpolate [x0; x1; x2] [y0; y1; y2] v
  == y0 + (y1 - y0) * ((v - x0) / (x1 - x0)).
Proof.
  intros H01 H12 Hlo Hhi. unfold interpolate.
  cbn [List.length Nat.eqb nth last rev app andb].
  destruct (Qltb_spec x2 x0); [Lqa.lra|].
  cbn [nth last]. rewrite clamp_inside by Lqa.lra.
  destruct (Qeq_bool x0 x1) eqn:Ex.
  { apply Qeq_bool_iff in Ex. Lqa.lra. }
  cbn [andb interpolator].
  destruct (Qltb_spec v x1); [|Lqa.lra].
  unfold mixNumber. rewrite progress_eq by assumption. reflexivity.
Qed.

(** ... and the piece from the middle one on. *)
Lemma interpolate3_right x0 x1 x2 y0 y1 y2 v :
  x0 < x1 -> x1 < x2 -> x1 <= v -> v <= x2 ->
  interpolate [x0; x1; x2] [y0; y1; y2] v
  == y1 + (y2 - y1) * ((v - x1) / (x2 - x1)).
Proof.
  intros H01 H12 Hlo Hhi. unfold interpolate.
  cbn [List.length Nat.eqb nth last rev app andb].
  destruct (Qltb_spec x2 x0); [Lqa.lra|].
  cbn [nth last]. rewrite clamp_inside by Lqa.lra.
  destruct (Qeq_bool x0 x1) eqn:Ex.
  { apply Qeq_bool_iff in Ex. Lqa.lra. }
  cbn [andb interpolator].
  destruct (Qltb_spec v x1); [Lqa.lra|].
  unfold mixNumber. rewrite progress_eq by assumption. reflexivity.
Qed.

End MotionFacts.

Module CameraStageFacts.

Import Motion MotionFacts CameraStage.
Local Open Scope Q_scope.

(** C1.  For a scroll progress [p] in [[0,1]] the four derived
    parameters are the linear pieces through the breakpoints of the
    source: scale runs from 1 to 0.8, rotation from 0 to -5, the
    vertical offset from 0 to -50, and opacity is 1 up to 0.8 and falls
    linearly to 0 between 0.8 and 1. *)
Theorem derived_parameters_piecewise_linear (p : Q) :
  0 <= p -> p <= 1 ->
  scale p == 1 - 0.2 * p
  /\ rotate p == - (5 * p)
  /\ y p == - (50 * p)
  /\ (p <= 0.8 -> opacity p == 1)
  /\ (0.8 <= p -> opacity p == (1 - p) / 0.2).
Proof.
  intros H0 H1. unfold scale, rotate, y, opacity, useTransform.
  repeat split.
  - rewrite interpolate2 by Lqa.lra. field.
  - rewrite interpolate2 by Lqa.lra. field.
  - rewrite interpolate2 by Lqa.lra. field.
  - intros H. destruct (Qlt_le_dec p 0.8) as [L|G].
    + rewrite interpolate3_left by Lqa.lra. field.
    + assert (E : p == 0.8) by Lqa.lra.
      rewrite interpolate3_right by Lqa.lra. rewrite E. reflexivity.
  - intros H. rewrite interpolate3_right by Lqa.lra. field.
Qed.

(** The four parameters three quarters of the way down the page. *)
Lemma derived_parameters_at_three_quarters :
  scale 0.75 == 1 - 0.2 * 0.75
  /\ rotate 0.75 == - (5 * 0.75)
  /\ y 0.75 == - (50 * 0.75)
  /\ (0.75 <= 0.8 -> opacity 0.75 == 1)
  /\ (0.8 <= 0.75 -> opacity 0.75 == (1 - 0.75) / 0.2).
Proof.
  apply (derived_parameters_piecewise_linear 0.75); Lqa.lra.
Defined.

End CameraStageFacts.

(** ** The spring filter *)

Module SpringFacts.

Import Spring.
Local Open Scope R_scope.

Lemma exp_decay K c eps :
  0 <= K -> 0 < c -> 0 < eps ->
  exists T, 0 <= T /\ forall t, T < t -> K * exp (- (c * t)) < eps.
Proof.
  intros HK Hc He. exists (K / (eps * c)). split.
  - apply Rmult_le_pos; [assumption|]. left. apply Rinv_0_lt_compat.
    now apply Rmult_lt_0_compat.
  - intros t Ht.
    assert (HT : 0 <= K / (eps * c)).
    { apply Rmult_le_pos; [assumption|]. left. apply Rinv_0_lt_compat.
      now apply Rmult_lt_0_compat. }
    assert (Hpos : 0 < t) by lra.
    assert (Hct : 0 < c * t) by now apply Rmult_lt_0_compat.
    assert (Hexp : 1 + c * t <= exp (c * t)) by apply exp_ineq1_le.
    rewrite exp_Ropp.
    assert (HKlt : K < eps * (c * t)).
    { assert (H1 : K / (eps * c) * (eps * c) < t * (eps * c)).
      { apply Rmult_lt_compat_r; [now apply Rmult_lt_0_compat | assumption]. }
      unfold Rdiv in H1. rewrite Rmult_assoc, Rinv_l in H1; [lra|].
      apply Rgt_not_eq. now apply Rmult_lt_0_compat. }
    assert (Hep : 0 < exp (c * t)) by apply exp_pos.
    apply Rmult_lt_reg_r with (exp (c * t)); [assumption|].
    rewrite Rmult_assoc, Rinv_l by (now apply Rgt_not_eq).
    assert (eps * (c * t) < eps * exp (c * t)).
    { apply Rmult_lt_compat_l; lra. }
    lra.
Qed.

Lemma sinh_abs_le_exp u : 0 <= u -> Rabs (sinh u) <= exp u.
Proof.
  intros Hu. unfold sinh.
  assert (H1 : 0 < exp u) by apply exp_pos.
  assert (H2 : 0 < exp (- u)) by apply exp_pos.
  assert (H3 : exp (- u) <= exp u).
  { destruct Hu as [Hu|Hu].
    - left. apply exp_increasing. lra.
    - subst u. rewrite Ropp_0. lra. }
  apply Rabs_le. lra.
Qed.

Lemma cosh_abs_le_exp u : 0 <= u -> Rabs (cosh u) <= exp u.
Proof.
  intros Hu. unfold cosh.
  assert (H1 : 0 < exp u) by apply exp_pos.
  assert (H2 : 0 < exp (- u)) by apply exp_pos.
  assert (H3 : exp (- u) <= exp u).
  { destruct Hu as [Hu|Hu].
    - left. apply exp_increasing. lra.
    - subst u. rewrite Ropp_0. lra. }
  apply Rabs_le. lra.
Qed.

Lemma exp_le_mono a b : a <= b -> exp a <= exp b.
Proof.
  intros [H|H]; [left; now apply exp_increasing | subst; lra].
Qed.

(** An envelope decaying at rate [a] times hyperbolic terms growing at a
    smaller rate [wd] tends to zero. *)
Lemma damped_hyperbolic_vanishes a wd A B :
  0 < wd -> wd < a ->
  converges_to
    (fun t => exp (- (a * t))
              * (A * sinh (Rmin (wd * t) 300) + B * cosh (Rmin (wd * t) 300))
              / wd) 0.
Proof.
  intros Hwd Ha eps He.
  destruct (exp_decay ((Rabs A + Rabs B) / wd) (a - wd) eps) as [T [HT Hb]].
  - apply Rmult_le_pos.
    + apply Rplus_le_le_0_compat; apply Rabs_pos.
    + left. now apply Rinv_0_lt_compat.
  - lra.
  - assumption.
  - exists T. intros t Ht. specialize (Hb t Ht).
    rewrite Rminus_0_r.
    set (u := Rmin (wd * t) 300).
    assert (Ht0 : 0 < t) by lra.
    assert (Hu0 : 0 <= u).
    { unfold u. apply Rmin_glb; [|lra]. left. now apply Rmult_lt_0_compat. }
    assert (Hu1 : u <= wd * t) by apply Rmin_l.
    assert (Hs := sinh_abs_le_exp u Hu0).
    assert (Hc := cosh_abs_le_exp u Hu0).
    assert (He1 : exp u <= exp (wd * t)) by now apply exp_le_mono.
    assert (Hin : Rabs (A * sinh u + B * cosh u) <= (Rabs A + Rabs B) * exp (wd * t)).
    { eapply Rle_trans; [apply Rabs_triang|].
      rewrite !Rabs_mult, Rmult_plus_distr_r.
      apply Rplus_le_compat; apply Rmult_le_compat_l;
        try apply Rabs_pos; lra. }
    unfold Rdiv. rewrite !Rabs_mult.
    rewrite (Rabs_pos_eq (exp _)) by (left; apply exp_pos).
    rewrite (Rabs_pos_eq (/ wd)) by (left; now apply Rinv_0_lt_compat).
    eapply Rle_lt_trans; [|exact Hb].
    assert (Hsplit : exp (- ((a - wd) * t)) = exp (- (a * t)) * exp (wd * t)).
    { rewrite <- exp_plus. f_equal. ring. }
    rewrite Hsplit.
    assert (Hiw : 0 < / wd) by now apply Rinv_0_lt_compat.
    assert (Hea : 0 < exp (- (a * t))) by apply exp_pos.
    unfold Rdiv.
    replace ((Rabs A + Rabs B) * / wd * (exp (- (a * t)) * exp (wd * t)))
      with (exp (- (a * t)) * ((Rabs A + Rabs B) * exp (wd * t)) * / wd) by ring.
    apply Rmult_le_compat_r; [lra|].
    apply Rmult_le_compat_l; [lra|]. exact Hin.
Qed.

Lemma overdamped_converges k c m origin target v0 :
  0 < undampedAngularFreq k m -> 1 < dampingRatio k c m ->
  converges_to (overdamped k c m origin target v0) target.
Proof.
  intros Hw Hz.
  set (w := undampedAngularFreq k m) in *.
  set (z := dampingRatio k c m) in *.
  assert (Hzz : 0 < z * z - 1) by nra.
  assert (Hs : 0 < sqrt (z * z - 1)) by now apply sqrt_lt_R0.
  assert (Hsz : sqrt (z * z - 1) < z).
  { assert (E : sqrt (z * z) = z) by (apply sqrt_square; lra).
    rewrite <- E at 3. apply sqrt_lt_1; nra. }
  assert (Hwd : 0 < w * sqrt (z * z - 1)) by now apply Rmult_lt_0_compat.
  assert (Hlt : w * sqrt (z * z - 1) < z * w).
  { rewrite (Rmult_comm z w). now apply Rmult_lt_compat_l. }
  intros eps He.
  destruct (damped_hyperbolic_vanishes (z * w) (w * sqrt (z * z - 1))
              (v0 + z * w * initialDelta origin target)
              (w * sqrt (z * z - 1) * initialDelta origin target)
              Hwd Hlt eps He) as [T HT].
  exists T. intros t Ht. specialize (HT t Ht).
  rewrite Rminus_0_r in HT.
  unfold overdamped. fold w. fold z. cbv zeta.
  match goal with
  | |- Rabs (target - ?g - target) < _ =>
      replace (target - g - target) with (- g) by ring
  end.
  rewrite Rabs_Ropp.
  exact HT.
Qed.

Lemma resolveSpring_overdamped k c m origin target v0 t :
  1 < dampingRatio k c m ->
  resolveSpring k c m origin target v0 t = overdamped k c m origin target v0 t.
Proof.
  intros Hz. unfold resolveSpring.
  destruct (Rlt_dec _ 1); [lra|].
  destruct (Req_dec_T _ 1); [lra|]. reflexivity.
Qed.

Lemma springValue_converges k c m done origin target v0 :
  0 < undampedAngularFreq k m -> 1 < dampingRatio k c m ->
  converges_to (springValue k c m origin target v0 done) target.
Proof.
  intros Hw Hz eps He.
  destruct (overdamped_converges k c m origin target v0 Hw Hz eps He) as [T HT].
  exists T. intros t Ht. unfold springValue.
  destruct (done t).
  - rewrite Rminus_diag, Rabs_R0. assumption.
  - rewrite resolveSpring_overdamped by assumption. now apply HT.
Qed.

End SpringFacts.

Module CameraStageSpring.

Import Spring SpringFacts CameraStage.

Lemma config_frequency_positive :
  (0 < undampedAngularFreq (Q2R (stiffness springConfig)) (Q2R defaultMass))%R.
Proof.
  unfold undampedAngularFreq. apply sqrt_lt_R0.
  unfold Q2R; simpl. lra.
Qed.

Lemma config_damping_ratio :
  (dampingRatio (Q2R (stiffness springConfig)) (Q2R (damping springConfig))
                (Q2R defaultMass) = 3 / 2)%R.
Proof.
  unfold dampingRatio.
  assert (E : (Q2R (stiffness springConfig) * Q2R defaultMass = 10 * 10)%R).
  { unfold Q2R; simpl. lra. }
  rewrite E, sqrt_square by lra.
  unfold Q2R; simpl. lra.
Qed.

(** C7, as the spec words it, fails: the test for critical damping does
    not hold of the options of the source, [30 * 30 = 900] against
    [4 * 100 * 1 = 400]. *)
Lemma spring_not_critically_damped :
  ~ ((stiffness springConfig == 100 /\ damping springConfig == 30
      /\ criticallyDamped springConfig)%Q
     /\ forall (p : Q) (done : R -> bool) (origin initialVelocity : R),
         converges_to (springScale p done origin initialVelocity)
                      (Q2R (scale p))
         /\ converges_to (springRotate p done origin initialVelocity)
                         (Q2R (rotate p))).
Proof.
  intros [[_ [_ H]] _]. unfold criticallyDamped in H.
  vm_compute in H. discriminate H.
Qed.

(** C7 (amended).  The spring applied to scale and rotation has
    stiffness 100 and damping 30; for unit mass it is overdamped
    ([damping^2 = 900 > 400 = 4 * stiffness]), and for a held scroll
    progress its output tends to the raw interpolated value as time
    grows, from any starting position and velocity. *)
Theorem spring_overdamped_and_converges :
  (stiffness springConfig == 100 /\ damping springConfig == 30
   /\ overDamped springConfig)%Q
  /\ forall (p : Q) (done : R -> bool) (origin initialVelocity : R),
      converges_to (springScale p done origin initialVelocity) (Q2R (scale p))
      /\ converges_to (springRotate p done origin initialVelocity)
                      (Q2R (rotate p)).
Proof.
  split.
  - repeat split; vm_compute; reflexivity.
  - intros p done origin v0.
    assert (Hz : (1 < dampingRatio (Q2R (stiffness springConfig))
                                   (Q2R (damping springConfig))
                                   (Q2R defaultMass))%R)
      by (rewrite config_damping_ratio; lra).
    split; unfold springScale, springRotate, useSpring;
      apply springValue_converges;
      auto using config_frequency_positive.
Qed.

End CameraStageSpring.

(** ** The intro layer *)

Module FlashIntroFacts.

Import Motion MotionFacts FlashIntro.
Local Open Scope Q_scope.

Lemma total_nonneg dts : Forall (fun dt => 0 <= dt) dts -> 0 <= total dts.
Proof.
  induction 1 as [|dt rest Hdt _ IH]; cbn [total]; Lqa.lra.
Qed.

Lemma finished_iff t : finished transition t = true <-> 2 <= t.
Proof.
  unfold finished, transition; cbn [delay duration].
  rewrite Qle_bool_iff. split; intro H; Lqa.lra.
Qed.

Lemma finished_spec t : reflect (2 <= t) (finished transition t).
Proof.
  destruct (finished transition t) eqn:E; constructor.
  - now apply finished_iff.
  - intro H. apply finished_iff in H. congruence.
Qed.

Lemma start_wellFormed : wellFormed start.
Proof. intros _. cbn. Lqa.lra. Qed.

Lemma play_cons dt rest a :
  snd (play (dt :: rest) a)
  = ((if snd (frame transition dt a) then 1 else 0)
     + snd (play rest (fst (frame transition dt a))))%nat.
Proof.
  cbn [play]. destruct (frame transition dt a) as [a1 fired].
  cbn [fst snd]. destruct (play rest a1) as [a2 n]. reflexivity.
Qed.

(** Calls made by a layer that has already played [elapsed a] seconds. *)
Lemma play_calls dts : forall a,
  wellFormed a ->
  Forall (fun dt => 0 <= dt) dts ->
  snd (play dts a)
  = if completed a then O
    else if finished transition (elapsed a + total dts) then 1%nat else O.
Proof.
  induction dts as [|dt rest IH]; intros a Hwf Hnn.
  - cbn [play snd total]. destruct (completed a) eqn:Ec; [reflexivity|].
    specialize (Hwf Ec).
    destruct (finished_spec (elapsed a + 0)); [Lqa.lra|reflexivity].
  - inversion Hnn as [|? ? Hdt Hrest]; subst.
    pose proof (total_nonneg rest Hrest) as Htot.
    rewrite play_cons. unfold frame. cbn [total].
    destruct (completed a) eqn:Ec.
    + cbn [fst snd]. rewrite IH; [reflexivity| |assumption].
      intros H; discriminate H.
    + specialize (Hwf Ec).
      destruct (finished_spec (elapsed a + dt)) as [F|F]; cbn [fst snd].
      * rewrite IH; [|intros H; discriminate H|assumption].
        cbn [completed].
        destruct (finished_spec (elapsed a + (dt + total rest)));
          [reflexivity|Lqa.lra].
      * rewrite IH; [|intros _; cbn [elapsed]; Lqa.lra|assumption].
        cbn [completed elapsed].
        destruct (finished_spec (elapsed a + dt + total rest));
          destruct (finished_spec (elapsed a + (dt + total rest)));
          try reflexivity; Lqa.lra.
Qed.

(** C4.  At mount the layer is a white, fixed, full-inset element of
    opacity 1; its opacity stays 1 throughout the delay of 0.5 s and is
    0 from 2 s on (0.5 s delay plus 1.5 s fade); over any sequence of
    animation frames [onComplete] is called once the played time has
    reached 2 s and not before, and never a second time. *)
Theorem flash_intro_contract (easeOut : Q -> Q) (dts : list Q) :
  Forall (fun dt => 0 <= dt) dts ->
  (opacity easeOut 0 == 1
   /\ hasClass "fixed" render = true
   /\ hasClass "inset-0" render = true
   /\ hasClass "bg-white" render = true)
  /\ (forall t, t <= 0.5 -> opacity easeOut t == 1)
  /\ (forall t, 2 <= t -> opacity easeOut t == 0)
  /\ delay transition + duration transition == 2
  /\ onCompleteCalls dts = (if Qle_bool 2 (total dts) then 1 else 0)%nat
  /\ (onCompleteCalls dts <= 1)%nat.
Proof.
  intros Hnn.
  assert (Hcalls : onCompleteCalls dts
                   = (if Qle_bool 2 (total dts) then 1 else 0)%nat).
  { unfold onCompleteCalls. rewrite play_calls by auto using start_wellFormed.
    cbn [completed elapsed start].
    destruct (finished_spec (0 + total dts));
      destruct (Qle_bool_spec 2 (total dts)); try reflexivity; Lqa.lra. }
  repeat split; try reflexivity.
  - intros t Ht. unfold opacity, tween, transition; cbn [delay duration].
    destruct (Qle_bool_spec t 0.5); [reflexivity|contradiction].
  - intros t Ht. unfold opacity, tween.
    destruct (Qle_bool_spec t (delay transition)) as [L|L].
    { unfold transition in L; cbn [delay] in L. Lqa.lra. }
    destruct (finished_spec t); [reflexivity|contradiction].
  - exact Hcalls.
  - rewrite Hcalls. destruct (Qle_bool 2 (total dts)); lia.
Qed.

(** Three frames that add up to 2.25 s: one call. *)
Lemma flash_intro_contract_three_frames :
  Forall (fun dt => 0 <= dt) [0.5; 1; 0.75]
  /\ onCompleteCalls [0.5; 1; 0.75] = 1%nat.
Proof.
  assert (H : Forall (fun dt => 0 <= dt) [0.5; 1; 0.75]).
  { repeat constructor; discriminate. }
  split; [exact H|].
  destruct (flash_intro_contract (fun q => q) [0.5; 1; 0.75] H) as (_ & _ & _ & _ & Hc & _).
  rewrite Hc. reflexivity.
Defined.

End FlashIntroFacts.

(** ** The root and its loaded flag *)

Module AppFacts.

Import Motion MotionFacts FlashIntroFacts App.
Local Open Scope Q_scope.

Section Clock.

Variable toLocaleTimeString : Z -> string.

Local Abbreviation step := (App.step toLocaleTimeString).
Local Abbreviation run := (App.run toLocaleTimeString).
Local Abbreviation final := (App.final toLocaleTimeString).
Local Abbreviation rises := (App.rises toLocaleTimeString).
Local Abbreviation fires := (App.fires toLocaleTimeString).
Local Abbreviation mount := (App.mount toLocaleTimeString).

Lemma mount_coherent now : coherent (mount now).
Proof. split; [reflexivity|]. intros _. cbn. Lqa.lra. Qed.

(** No event takes the flag back. *)
Lemma step_keeps_loaded s e :
  isLoaded s = true -> isLoaded (fst (step s e)) = true.
Proof.
  intros H. destruct e; cbn [App.step fst isLoaded]; try assumption.
  unfold introMounted. rewrite H. cbn. assumption.
Qed.

(** The flag is raised only by a call of [onComplete]. *)
Lemma step_raises_only_on_complete s e :
  isLoaded s = false -> isLoaded (fst (step s e)) = true ->
  snd (step s e) = true.
Proof.
  intros H. destruct e; cbn [App.step fst snd isLoaded]; try congruence.
  unfold introMounted. rewrite H. cbn [negb].
  destruct (frame FlashIntro.transition dt (intro s)) as [a [|]];
    cbn [fst snd isLoaded]; congruence.
Qed.

Lemma page_run_cons s e rest :
  run s (e :: rest)
  = (fst (run (fst (step s e)) rest),
     ((if (negb (isLoaded s) && isLoaded (fst (step s e)))%bool
       then 1 else 0) + fst (snd (run (fst (step s e)) rest)),
      (if snd (step s e) then 1 else 0)
      + snd (snd (run (fst (step s e)) rest)))%nat).
Proof.
  cbn [App.run]. destruct (step s e) as [s1 fired]. cbn [fst snd].
  destruct (App.run toLocaleTimeString s1 rest) as [s2 [r f]]. reflexivity.
Qed.

Lemma final_loaded_stays s es :
  isLoaded s = true -> isLoaded (final s es) = true.
Proof.
  revert s. induction es as [|e rest IH]; intros s H.
  - exact H.
  - unfold App.final. rewrite page_run_cons. cbn [fst].
    apply IH. now apply step_keeps_loaded.
Qed.

(** Once loaded, a trace neither raises the flag nor calls back. *)
Lemma loaded_run_quiet es : forall s,
  isLoaded s = true -> rises s es = O /\ fires s es = O.
Proof.
  induction es as [|e rest IH]; intros s H.
  - split; reflexivity.
  - unfold App.rises, App.fires. rewrite page_run_cons. cbn [fst snd].
    pose proof (step_keeps_loaded s e H) as H1.
    destruct (IH _ H1) as [Hr Hf].
    unfold App.rises in Hr. unfold App.fires in Hf. rewrite Hr, Hf, H.
    cbn [negb andb]. split; [reflexivity|].
    destruct e; cbn [App.step snd]; try reflexivity.
    unfold introMounted. rewrite H. reflexivity.
Qed.

Ltac other_event IH Hrest El :=
  cbn [App.step fst snd isLoaded animationTime]; rewrite ?El;
  match goal with
  | |- context [App.run _ ?s1 _] =>
      let Hc1 := fresh in
      assert (Hc1 : coherent s1)
        by (split; cbn [isLoaded intro]; auto);
      let Hfin := fresh in
      let Hr := fresh in
      let Hf := fresh in
      destruct (IH s1 Hc1 Hrest) as (Hfin & Hr & Hf);
      unfold App.final in Hfin; unfold App.rises in Hr, Hf;
      unfold App.fires in Hf;
      rewrite Hfin, Hf, Hr; cbn [isLoaded intro]; rewrite ?El;
      cbn [negb andb orb plus]; split; [|split]; reflexivity
  end.

(** The flag, the count of its rises and the count of callbacks after
    a trace, from a state whose intro has played [elapsed] seconds. *)
Lemma run_characterised es : forall s,
  coherent s -> nonNegativeFrames es ->
  let done := Qle_bool 2 (elapsed (intro s) + animationTime es) in
  isLoaded (final s es) = (isLoaded s || done)%bool
  /\ rises s es = (if (negb (isLoaded s) && done)%bool then 1 else 0)%nat
  /\ fires s es = rises s es.
Proof.
  induction es as [|e rest IH]; intros s [Hc Hel] Hnn; cbv zeta.
  - unfold App.final, App.rises, App.fires. cbn [App.run fst snd animationTime].
    destruct (isLoaded s) eqn:El; [split; [|split]; reflexivity|].
    specialize (Hel eq_refl).
    destruct (Qle_bool_spec 2 (elapsed (intro s) + 0)); [Lqa.lra|].
    split; [|split]; reflexivity.
  - inversion Hnn as [|? ? He Hrest]; subst.
    destruct (isLoaded s) eqn:El.
    { destruct (loaded_run_quiet (e :: rest) s El) as [Hr Hf].
      rewrite Hr, Hf. cbn [negb andb orb].
      split; [|split]; try reflexivity.
      now apply final_loaded_stays. }
    specialize (Hel eq_refl). cbn [negb andb orb].
    unfold App.final, App.rises, App.fires. rewrite page_run_cons. cbn [fst snd].
    rewrite El. cbn [negb andb].
    assert (Ht : 0 <= animationTime rest).
    { clear - Hrest. induction Hrest as [|e' ? He' _ IH']; cbn [animationTime].
      - Lqa.lra.
      - destruct e'; try assumption. Lqa.lra. }
    destruct e as [dt|p|h|v].
    + (* an animation frame *)
      cbn [App.step animationTime]. unfold introMounted. rewrite El. cbn [negb].
      unfold frame. rewrite <- Hc.
      destruct (finished_spec (elapsed (intro s) + dt)) as [F|F];
        cbn [fst snd onComplete setIsLoaded isLoaded].
      * match goal with
        | |- context [App.run _ ?s1 rest] =>
            destruct (loaded_run_quiet rest s1 eq_refl) as [Hr Hf];
            pose proof (final_loaded_stays s1 rest eq_refl) as Hfin
        end.
        unfold App.final in Hfin. unfold App.rises in Hr. unfold App.fires in Hf.
        rewrite Hr, Hf, Hfin.
        destruct (Qle_bool_spec 2 (elapsed (intro s) + (dt + animationTime rest)));
          [|Lqa.lra].
        split; [|split]; reflexivity.
      * match goal with
        | |- context [App.run _ ?s1 rest] =>
            assert (Hc1 : coherent s1)
              by (split; [cbn; congruence | intros _; cbn; Lqa.lra]);
            destruct (IH s1 Hc1 Hrest) as (Hfin & Hr & Hf)
        end.
        unfold App.final in Hfin. unfold App.rises in Hr, Hf.
        unfold App.fires in Hf.
        rewrite Hfin, Hf, Hr. cbn [isLoaded intro elapsed]. rewrite ?El.
        cbn [negb andb orb plus].
        destruct (Qle_bool_spec 2 (elapsed (intro s) + dt + animationTime rest));
          destruct (Qle_bool_spec 2 (elapsed (intro s) + (dt + animationTime rest)));
          try (split; [|split]; reflexivity); Lqa.lra.
    + other_event IH Hrest El.
    + other_event IH Hrest El.
    + other_event IH Hrest El.
Qed.

(** C2.  The root's flag is [false] at mount.  Over any trace of
    page events it is raised at most once; it has been raised exactly
    once as soon as the intro's 2 s of animation have been played;
    every rise happens in a step in which [FlashIntro] calls
    [onComplete] (rises and calls are counted alike); and from a
    state in which the flag is [true] no trace leads to one in
    which it is [false]. *)
Theorem loaded_flag_transitions_once (now : Z) (es : list event) :
  nonNegativeFrames es ->
  isLoaded (mount now) = false
  /\ (rises (mount now) es <= 1)%nat
  /\ rises (mount now) es
     = (if Qle_bool 2 (animationTime es) then 1 else 0)%nat
  /\ isLoaded (final (mount now) es) = Qle_bool 2 (animationTime es)
  /\ fires (mount now) es = rises (mount now) es
  /\ (forall s e, isLoaded s = false ->
                  isLoaded (fst (step s e)) = true -> snd (step s e) = true)
  /\ (forall s es', isLoaded s = true -> isLoaded (final s es') = true).
Proof.
  intros Hnn.
  destruct (run_characterised es (mount now) (mount_coherent now) Hnn)
    as (Hfin & Hr & Hf).
  cbn [App.mount isLoaded intro start elapsed negb andb orb] in Hfin, Hr.
  assert (E : Qle_bool 2 (0 + animationTime es)
              = Qle_bool 2 (animationTime es)).
  { destruct (Qle_bool_spec 2 (0 + animationTime es));
      destruct (Qle_bool_spec 2 (animationTime es));
      try reflexivity; Lqa.lra. }
  rewrite E in Hfin, Hr.
  split; [reflexivity|].
  split; [rewrite Hr; destruct (Qle_bool 2 (animationTime es)); lia|].
  split; [exact Hr|].
  split; [exact Hfin|].
  split; [exact Hf|].
  split; [exact step_raises_only_on_complete | exact final_loaded_stays].
Qed.

(** C5.  In every state the page can reach, the intro layer carries
    [pointer-events-none], and the content region with its six
    sections, in order, is a child of the root; the flag selects
    only the opacity class of that region.  The intro layer itself is
    in the tree exactly while the flag is [false]. *)
Theorem intro_never_blocks_content (now : Z) (es : list event) :
  let s := final (mount now) es in
  hasClass "pointer-events-none" FlashIntro.render = true
  /\ In (content s) (childNodes (render s))
  /\ childNodes (content s)
     = [Comp "CameraStage"; Comp "AboutSection"; Comp "SpecsSection";
        Comp "Gallery"; Comp "ContactSection";
        Elem "footer" ["pt-0"; "pb-20"; "px-6"; "border-t";
                       "border-white/5"]%string []]
  /\ classes (content s)
     = ["transition-opacity"; "duration-1000";
        if isLoaded s then "opacity-100" else "opacity-0"]%string
  /\ (In FlashIntro.render (childNodes (render s)) <-> isLoaded s = false).
Proof.
  intros s. split; [reflexivity|].
  split.
  { unfold render. cbn [childNodes]. apply in_or_app. right.
    cbn [In]. auto 10. }
  split; [reflexivity|]. split; [reflexivity|].
  unfold render, introMounted. cbn [childNodes].
  destruct (isLoaded s); cbn [negb app]; split; intros H;
    try discriminate H; try reflexivity; try (left; reflexivity).
  cbn [In] in H. unfold FlashIntro.render, content in H.
  repeat (destruct H as [H|H]; [discriminate H|]). contradiction.
Qed.

End Clock.

End AppFacts.

Module AppSamples.

Import App AppFacts Samples.
Local Open Scope Q_scope.

(** The sample page trace plays 5.5 s of animation: one rise. *)
Lemma loaded_flag_transitions_once_trace :
  nonNegativeFrames trace
  /\ rises (fun _ => EmptyString) (mount (fun _ => EmptyString) 0) trace = 1%nat
  /\ isLoaded (final (fun _ => EmptyString) (mount (fun _ => EmptyString) 0) trace)
     = true.
Proof.
  assert (H : nonNegativeFrames trace).
  { unfold trace. repeat constructor; discriminate. }
  split; [exact H|].
  destruct (loaded_flag_transitions_once (fun _ => EmptyString) 0 trace H)
    as (_ & _ & Hr & Hfin & _).
  rewrite Hr, Hfin. split; reflexivity.
Defined.

End AppSamples.

(** ** The heads-up display *)

Module HUDFacts.

Import HUD.
Local Open Scope string_scope.

(** *** Printing a coordinate *)

Lemma length_append (s1 s2 : string) :
  String.length (s1 ++ s2) = (String.length s1 + String.length s2)%nat.
Proof. induction s1 as [|c s1 IH]; cbn; [reflexivity | now rewrite IH]. Qed.

Lemma length_fill pad cur n :
  pad <> "" -> String.length (fill pad cur n) = n.
Proof.
  intros Hp. revert cur. induction n as [|n IH]; intros cur; cbn [fill].
  - reflexivity.
  - destruct cur as [|c rest].
    + destruct pad as [|c rest]; [contradiction|]. cbn. now rewrite IH.
    + cbn. now rewrite IH.
Qed.

Lemma padStart_length s n pad :
  pad <> "" -> (n <= String.length (padStart s n pad))%nat.
Proof.
  intros Hp. unfold padStart.
  destruct (Nat.leb_spec n (String.length s)) as [L|L]; [exact L|].
  rewrite length_append, length_fill by assumption. lia.
Qed.

Lemma decimalValue_zero_prefix s :
  decimalValue (String "0" s) = decimalValue s.
Proof.
  unfold decimalValue. cbn [NilEmpty.uint_of_string].
  destruct (NilEmpty.uint_of_string s) as [d|]; reflexivity.
Qed.

Lemma decimalValue_fill_zero n : forall cur s,
  (cur = "0" \/ cur = "") ->
  decimalValue (fill "0" cur n ++ s) = decimalValue s.
Proof.
  induction n as [|n IH]; intros cur s Hc; cbn [fill].
  - reflexivity.
  - destruct Hc as [-> | ->]; cbn [append];
      rewrite decimalValue_zero_prefix; apply IH; auto.
Qed.

Lemma toString_of_N n :
  toString (Z.of_N n) = NilZero.string_of_uint (N.to_uint n).
Proof. destruct n; reflexivity. Qed.

Lemma decimalValue_toString n : decimalValue (toString (Z.of_N n)) = Some n.
Proof.
  rewrite toString_of_N. unfold decimalValue, NilZero.string_of_uint.
  destruct (N.to_uint n) eqn:E;
    try (rewrite <- E, NilEmpty.usu; cbn [option_map];
         now rewrite DecimalN.Unsigned.of_to).
  apply (f_equal N.of_uint) in E. rewrite DecimalN.Unsigned.of_to in E.
  subst n. reflexivity.
Qed.

(** A non-negative coordinate is printed as its decimal digits behind
    enough zeros to make four characters. *)
Lemma padded_coordinate n :
  decimalValue (padStart (toString (Z.of_N n)) 4 "0") = Some n.
Proof.
  unfold padStart.
  destruct (4 <=? String.length (toString (Z.of_N n)))%nat.
  - apply decimalValue_toString.
  - rewrite decimalValue_fill_zero by auto. apply decimalValue_toString.
Qed.

(** *** Subscriptions *)

Section Clock.

Variable toLocaleTimeString : Z -> string.

Local Abbreviation mount := (HUD.mount toLocaleTimeString).
Local Abbreviation step := (HUD.step toLocaleTimeString).
Local Abbreviation run := (HUD.run toLocaleTimeString).

Lemma empty_subscribed : subscribed empty.
Proof. split; reflexivity. Qed.

Lemma update_subscribed f cb w : subscribed w -> subscribed (update f cb w).
Proof.
  unfold subscribed. cbn [update instance cleanup intervals listeners].
  destruct (instance w); cbn [option_map]; auto.
Qed.

Lemma mount_subscribed now w : subscribed w -> subscribed (mount now w).
Proof.
  unfold subscribed, HUD.mount.
  destruct (instance w) eqn:Ei; [rewrite Ei; auto|].
  destruct (cleanup w); [contradiction|]. intros [Hi Hl].
  cbn [instance cleanup intervals listeners]. rewrite Hi, Hl.
  split; reflexivity.
Qed.

Lemma unmount_subscribed w : subscribed w -> subscribed (unmount w).
Proof.
  unfold subscribed, unmount.
  destruct (instance w) eqn:Ei; destruct (cleanup w) as [[timer h]|] eqn:Ec;
    try contradiction; [|rewrite Ei, Ec; auto].
  intros [Hi Hl]. cbn [instance cleanup intervals listeners].
  rewrite Hi, Hl. unfold clearInterval, removeEventListener, sameListener.
  cbn [filter timerId eventType fn].
  rewrite !Nat.eqb_refl. split; reflexivity.
Qed.

Lemma dispatch_single c h w :
  dispatch "mousemove" c [{| eventType := "mousemove"; fn := h |}] w
  = update (setCoords c) HandleMouseMove w.
Proof. reflexivity. Qed.

Lemma step_subscribed w e : subscribed w -> subscribed (step w e).
Proof.
  intros H. destruct e as [now| |id now|cx cy]; cbn [HUD.step].
  - now apply mount_subscribed.
  - now apply unmount_subscribed.
  - destruct (existsb _ _); [now apply update_subscribed | exact H].
  - pose proof H as H'. unfold subscribed in H'.
    destruct (instance w); destruct (cleanup w) as [[timer h]|];
      try contradiction; destruct H' as [_ Hl]; rewrite Hl.
    + rewrite dispatch_single. now apply update_subscribed.
    + exact H.
Qed.

Lemma run_subscribed es : forall w, subscribed w -> subscribed (run w es).
Proof.
  induction es as [|e rest IH]; intros w H; [exact H|].
  cbn [HUD.run fold_left]. apply IH. now apply step_subscribed.
Qed.

(** With nothing registered, timers and pointer moves reach no
    callback. *)
Lemma signals_without_subscriptions es : forall w,
  intervals w = [] -> listeners w = [] ->
  forallb isSignal es = true -> run w es = w.
Proof.
  induction es as [|e rest IH]; intros w Hi Hl Hs; [reflexivity|].
  cbn [forallb] in Hs. apply andb_true_iff in Hs. destruct Hs as [He Hs].
  cbn [HUD.run fold_left].
  assert (E : step w e = w).
  { destruct e; try discriminate He; cbn [HUD.step].
    - rewrite Hi. reflexivity.
    - rewrite Hl. reflexivity. }
  rewrite E. now apply IH.
Qed.

Lemma unmount_clears w :
  subscribed w ->
  instance (unmount w) = None /\ intervals (unmount w) = []
  /\ listeners (unmount w) = [] /\ calls (unmount w) = calls w.
Proof.
  intros H. pose proof (unmount_subscribed w H) as Hu.
  unfold subscribed in H, Hu. unfold unmount in *.
  destruct (instance w) eqn:Ei; destruct (cleanup w) as [[timer h]|] eqn:Ec;
    try contradiction.
  - cbn [instance cleanup intervals listeners calls] in *.
    destruct Hu as [Hi Hl]. auto.
  - rewrite Ei, Ec in Hu. destruct Hu as [Hi Hl]. auto.
Qed.

(** C6.  In every state the display can reach by mounts, unmounts,
    timer expiries and pointer moves, a mounted display holds
    exactly two subscriptions, one interval of 1000 ms and one
    [mousemove] listener, and an unmounted one holds none.
    Unmounting removes both, and from then on no timer expiry or
    pointer move invokes a callback of the display: the world, and
    with it the log of invocations, no longer changes. *)
Theorem hud_subscriptions_torn_down (es later : list event) :
  forallb isSignal later = true ->
  let w := run empty es in
  subscribed w
  /\ (forall now,
        intervals (mount now empty) = [{| timerId := 0; period := 1000 |}]
        /\ listeners (mount now empty)
           = [{| eventType := "mousemove"; fn := 0 |}])
  /\ intervals (unmount w) = []
  /\ listeners (unmount w) = []
  /\ run (unmount w) later = unmount w
  /\ calls (run (unmount w) later) = calls w.
Proof.
  intros Hs w.
  assert (Hw : subscribed w) by (apply run_subscribed, empty_subscribed).
  destruct (unmount_clears w Hw) as (Hn & Hi & Hl & Hc).
  assert (Hq : run (unmount w) later = unmount w)
    by (now apply signals_without_subscriptions).
  repeat split; try assumption.
  rewrite Hq. exact Hc.
Qed.

(** *** What a mounted display shows *)

Lemma mounted_signal w st e :
  subscribed w -> instance w = Some st -> isSignal e = true ->
  exists st',
    instance (step w e) = Some st'
    /\ coords st' = moveTo (coords st) e
    /\ (isMouseMove e = true -> time st' = time st).
Proof.
  intros Hsub Hi He. unfold subscribed in Hsub. rewrite Hi in Hsub.
  destruct (cleanup w) as [[timer h]|]; [|contradiction].
  destruct Hsub as [Hin Hl].
  destruct e as [now| |id now|cx cy]; try discriminate He; cbn [HUD.step].
  - destruct (existsb _ _).
    + exists (setTime (toLocaleTimeString now) st).
      cbn [update instance]. rewrite Hi.
      repeat split. intros H; discriminate H.
    + exists st. repeat split. assumption.
  - rewrite Hl, dispatch_single. exists (setCoords {| x := cx; y := cy |} st).
    cbn [update instance]. rewrite Hi. repeat split.
Qed.

Lemma mounted_signals es : forall w st,
  subscribed w -> instance w = Some st -> forallb isSignal es = true ->
  exists st',
    instance (run w es) = Some st'
    /\ coords st' = fold_left moveTo es (coords st)
    /\ (forallb isMouseMove es = true -> time st' = time st).
Proof.
  induction es as [|e rest IH]; intros w st Hsub Hi Hs.
  - exists st. repeat split. assumption.
  - cbn [forallb] in Hs. apply andb_true_iff in Hs. destruct Hs as [He Hs].
    destruct (mounted_signal w st e Hsub Hi He) as (st1 & Hi1 & Hc1 & Ht1).
    destruct (IH (step w e) st1 (step_subscribed w e Hsub) Hi1 Hs)
      as (st2 & Hi2 & Hc2 & Ht2).
    exists st2. cbn [HUD.run fold_left]. split; [exact Hi2|]. split.
    + rewrite Hc2, Hc1. reflexivity.
    + cbn [forallb]. intros Hm. apply andb_true_iff in Hm.
      destruct Hm as [Hm1 Hm2]. rewrite (Ht2 Hm2). now apply Ht1.
Qed.

Lemma mount_empty now :
  subscribed (mount now empty)
  /\ instance (mount now empty)
     = Some {| time := toLocaleTimeString now; coords := {| x := 0; y := 0 |} |}
  /\ cleanup (mount now empty) = Some (O, O).
Proof. repeat split. Qed.

(** C3 (amended).  After any sequence of timer expiries and pointer
    moves the mounted display holds the coordinates of the most
    recent pointer move exactly as delivered, [(0,0)] if there was
    none, and prints each as its decimal string left-padded with
    zeros to at least four characters; for a non-negative coordinate
    the printed text denotes that coordinate, and a move to
    (512,300) is printed as [POS_X: 0512] and [POS_Y: 0300]. *)
Theorem hud_shows_last_pointer_move (now : Z) (es : list event) :
  forallb isSignal es = true ->
  exists st,
    instance (run (mount now empty) es) = Some st
    /\ coords st = lastMove es
    /\ posX st = "POS_X: " ++ padStart (toString (x (lastMove es))) 4 "0"
    /\ posY st = "POS_Y: " ++ padStart (toString (y (lastMove es))) 4 "0"
    /\ (forall z : Z, (4 <= String.length (padStart (toString z) 4 "0"))%nat)
    /\ (forall n : N,
          decimalValue (padStart (toString (Z.of_N n)) 4 "0") = Some n)
    /\ (lastMove es = {| x := 512; y := 300 |} ->
        posX st = "POS_X: 0512" /\ posY st = "POS_Y: 0300").
Proof.
  intros Hs.
  destruct (mount_empty now) as (Hsub & Hi & _).
  destruct (mounted_signals es _ _ Hsub Hi Hs) as (st & Hst & Hc & _).
  exists st. split; [exact Hst|].
  assert (E : coords st = lastMove es) by exact Hc.
  split; [exact E|]. unfold posX, posY. rewrite E.
  split; [reflexivity|]. split; [reflexivity|].
  split; [intros z; apply padStart_length; discriminate|].
  split; [exact padded_coordinate|].
  intros ->. split; reflexivity.
Qed.

(** C10.  The clock cell is initialised at mount with
    [toLocaleTimeString] of the mount instant, so until the first
    expiry of the interval (whatever the pointer does) the display
    shows that string, which is a time-of-day string whenever the
    formatter produces one; an expiry of the display's interval at
    instant [t] replaces it by [toLocaleTimeString t], the same
    formatter. *)
Theorem hud_clock_initialised_at_mount
        (valid : string -> Prop) (now : Z) (es : list event) :
  (forall t, valid (toLocaleTimeString t)) ->
  forallb isMouseMove es = true ->
  exists st timer h,
    instance (run (mount now empty) es) = Some st
    /\ clock st = toLocaleTimeString now
    /\ valid (clock st)
    /\ cleanup (run (mount now empty) es) = Some (timer, h)
    /\ forall t, exists st',
        instance (step (run (mount now empty) es) (IntervalElapsed timer t))
        = Some st'
        /\ clock st' = toLocaleTimeString t.
Proof.
  intros Hv Hm.
  assert (Hs : forallb isSignal es = true).
  { clear - Hm. induction es as [|e rest IH]; [reflexivity|].
    cbn [forallb] in *. apply andb_true_iff in Hm. destruct Hm as [H1 H2].
    rewrite (IH H2), andb_true_r. destruct e; try discriminate H1; reflexivity. }
  destruct (mount_empty now) as (Hsub & Hi & _).
  destruct (mounted_signals es _ _ Hsub Hi Hs) as (st & Hst & _ & Ht).
  pose proof (run_subscribed es _ Hsub) as Hsub'.
  specialize (Ht Hm). cbn [time] in Ht.
  pose proof Hsub' as Hx. unfold subscribed in Hx. rewrite Hst in Hx.
  destruct (cleanup (run (mount now empty) es)) as [[timer h]|] eqn:Ec;
    [|contradiction].
  destruct Hx as [Hin _].
  exists st, timer, h. unfold clock. rewrite Ht.
  repeat split; try apply Hv.
  - exact Hst.
  - intros t. exists (setTime (toLocaleTimeString t) st).
    cbn [HUD.step]. rewrite Hin. cbn [existsb timerId].
    rewrite Nat.eqb_refl. cbn [orb update instance]. rewrite Hst.
    split; reflexivity.
Qed.

End Clock.

End HUDFacts.

(** ** The gallery's reveal *)

Module GalleryFacts.

Import Motion Gallery.

Lemma notInView_settled : settled notInView.
Proof. split; [reflexivity|]. intros H; discriminate H. Qed.

(** One report under [once]: the target becomes active on entry and
    stays so; the transition starts only if it was not active yet. *)
Lemma update_once b s :
  settled s ->
  settled (fst (onIntersectionUpdate viewport b s))
  /\ whileInViewActive (fst (onIntersectionUpdate viewport b s))
     = (whileInViewActive s || b)%bool
  /\ snd (onIntersectionUpdate viewport b s)
     = (b && negb (whileInViewActive s))%bool.
Proof.
  intros [He Hi]. unfold onIntersectionUpdate, viewport, settled.
  cbn [once]. destruct s as [inview entered active]. cbn in *. subst entered.
  destruct inview, b, active; cbn; auto; try (specialize (Hi eq_refl); discriminate Hi).
Qed.

Lemma updateCard_spec b : forall i st,
  Forall settled st ->
  Forall settled (fst (updateCard viewport i b st))
  /\ List.length (fst (updateCard viewport i b st)) = List.length st
  /\ (forall j,
        whileInViewActive (nth j (fst (updateCard viewport i b st)) notInView)
        = (whileInViewActive (nth j st notInView)
           || (Nat.eqb i j && Nat.ltb j (List.length st) && b))%bool)
  /\ snd (updateCard viewport i b st)
     = (Nat.ltb i (List.length st) && b
        && negb (whileInViewActive (nth i st notInView)))%bool.
Proof.
  intros i st. revert i. induction st as [|s rest IH]; intros i Hst.
  - cbn [updateCard fst snd List.length].
    split; [constructor|]. split; [reflexivity|]. split; [|reflexivity].
    intros j. rewrite andb_false_r. destruct j; reflexivity.
  - inversion Hst as [|? ? Hs Hrest]; subst.
    destruct i as [|i]; cbn [updateCard].
    + destruct (update_once b s Hs) as (H1 & H2 & H3).
      destruct (onIntersectionUpdate viewport b s) as [s1 started].
      cbn [fst snd] in *.
      split; [constructor; assumption|]. split; [reflexivity|]. split.
      * intros [|j]; cbn [nth Nat.eqb List.length andb Nat.ltb Nat.leb].
        -- exact H2.
        -- now rewrite orb_false_r.
      * cbn [nth List.length Nat.ltb Nat.leb andb]. exact H3.
    + destruct (IH i Hrest) as (H1 & H2 & H3 & H4).
      destruct (updateCard viewport i b rest) as [rest1 started].
      cbn [fst snd] in *.
      split; [constructor; assumption|]. split; [cbn; now rewrite H2|]. split.
      * intros [|j]; cbn [nth Nat.eqb List.length].
        -- now rewrite orb_false_r.
        -- rewrite H3. reflexivity.
      * rewrite H4. reflexivity.
Qed.

Lemma reveal_run_cons st e rest :
  run viewport st (e :: rest)
  = (fst (run viewport (fst (step viewport st e)) rest),
     if snd (step viewport st e)
     then card e :: snd (run viewport (fst (step viewport st e)) rest)
     else snd (run viewport (fst (step viewport st e)) rest)).
Proof.
  cbn [run]. destruct (step viewport st e) as [st1 started]. cbn [fst snd].
  destruct (run viewport st1 rest) as [st2 log]. reflexivity.
Qed.

(** How often card [i] is revealed by a trace, and what it shows
    afterwards, from any settled state. *)
Lemma run_reveals i es : forall st,
  Forall settled st ->
  let active := whileInViewActive (nth i st notInView) in
  let entered := (Nat.ltb i (List.length st) && existsb (entering i) es)%bool in
  count_occ Nat.eq_dec (snd (run viewport st es)) i
  = (if (entered && negb active)%bool then 1 else 0)%nat
  /\ whileInViewActive (nth i (fst (run viewport st es)) notInView)
     = (active || entered)%bool.
Proof.
  induction es as [|e rest IH]; intros st Hst; cbv zeta.
  - cbn [run fst snd count_occ existsb].
    rewrite andb_false_r, orb_false_r. split; reflexivity.
  - rewrite reveal_run_cons. cbn [fst snd existsb]. unfold step.
    destruct e as [c b]. cbn [card isIntersecting]. unfold entering at 1 3.
    cbn [card isIntersecting].
    destruct (updateCard_spec b c st Hst) as (H1 & H2 & H3 & H4).
    destruct (IH _ H1) as [IHc IHa]. cbv zeta in IHc, IHa.
    rewrite H2, H3 in IHc, IHa. rewrite IHa.
    assert (Hcount :
      count_occ Nat.eq_dec
        (if snd (updateCard viewport c b st)
         then c :: snd (run viewport (fst (updateCard viewport c b st)) rest)
         else snd (run viewport (fst (updateCard viewport c b st)) rest)) i
      = ((if (snd (updateCard viewport c b st) && Nat.eqb c i)%bool
          then 1 else 0)
         + count_occ Nat.eq_dec
             (snd (run viewport (fst (updateCard viewport c b st)) rest)) i)%nat).
    { destruct (snd (updateCard viewport c b st)); [|reflexivity].
      cbn [count_occ andb]. destruct (Nat.eq_dec c i) as [E|E].
      - subst. now rewrite Nat.eqb_refl.
      - apply Nat.eqb_neq in E. now rewrite E. }
    rewrite Hcount, IHc, H4. clear Hcount IHc IHa H3 H4.
    destruct (Nat.eqb_spec c i) as [->|Hci].
    + destruct (Nat.ltb i (List.length st)), b,
        (whileInViewActive (nth i st notInView)),
        (existsb (entering i) rest); split; reflexivity.
    + destruct (Nat.ltb i (List.length st)), (Nat.ltb c (List.length st)), b,
        (whileInViewActive (nth i st notInView)),
        (whileInViewActive (nth c st notInView)),
        (existsb (entering i) rest); split; reflexivity.
Qed.

Lemma init_settled : Forall settled init.
Proof. unfold init. repeat constructor; intros H; discriminate H. Qed.

(** C8.  Under the source's [viewport={{ once: true }}] the reveal
    transition of a gallery card is started at most once over any trace
    of viewport entries and exits: exactly once if one of the six cards
    is reported entering, never otherwise.  Extending a trace in which
    the card has entered by any further exits and entries starts
    nothing more, and from its first entry on the card shows the
    [whileInView] target. *)
Theorem gallery_reveals_at_most_once (i : nat) (es es' : list event) :
  let entered (l : list event) :=
    (Nat.ltb i (List.length images) && existsb (entering i) l)%bool in
  (reveals viewport i es <= 1)%nat
  /\ reveals viewport i es = (if entered es then 1 else 0)%nat
  /\ reveals viewport i (es ++ es')
     = (if (entered es || entered es')%bool then 1 else 0)%nat
  /\ shown (nth i (fst (run viewport init (es ++ es'))) notInView)
     = (if entered (es ++ es') then whileInView else initial).
Proof.
  intros entered.
  assert (Hr : forall l, reveals viewport i l = (if entered l then 1 else 0)%nat).
  { intros l. unfold reveals.
    destruct (run_reveals i l init init_settled) as [Hc _]. cbv zeta in Hc.
    rewrite Hc. unfold entered, init. rewrite length_map.
    replace (whileInViewActive (nth i (map (fun _ => notInView) images) notInView))
      with false.
    - now rewrite andb_true_r.
    - unfold images. cbn [map].
      do 7 (destruct i as [|i]; [reflexivity|]). reflexivity. }
  split; [rewrite Hr; destruct (entered es); lia|].
  split; [apply Hr|]. split.
  - rewrite Hr. unfold entered. rewrite existsb_app.
    destruct (Nat.ltb i (List.length images)), (existsb (entering i) es),
      (existsb (entering i) es'); reflexivity.
  - destruct (run_reveals i (es ++ es') init init_settled) as [_ Ha].
    cbv zeta in Ha. unfold shown. rewrite Ha. unfold entered, init.
    rewrite length_map.
    replace (whileInViewActive (nth i (map (fun _ => notInView) images) notInView))
      with false.
    + cbn [orb]. reflexivity.
    + unfold images. cbn [map].
      do 7 (destruct i as [|i]; [reflexivity|]). reflexivity.
Qed.

End GalleryFacts.

(** ** The background motifs *)

Module BackgroundFacts.

Import Random BackgroundElements Samples.
Local Open Scope Q_scope.

(** C9 (amended).  Across any two renders, whatever [Math.random]
    draws, the aperture and reticle motifs are identical and their
    initial offsets are the stated functions of the index; in the
    data-string group the initial horizontal offset and the travel side
    are functions of the index parity, while the initial vertical
    offset and the duration are the random draws of that render
    (instance [i] takes draws [2i] and [2i+1]). *)
Theorem background_offsets_by_index (src1 src2 : source) :
  apertures src1 = apertures src2
  /\ reticles src1 = reticles src2
  /\ map initialOffset (apertures src1)
     = map (fun i => (ofNat i * 30 + 10, ofNat i * 20 + 20)) (indices 3)
  /\ map initialOffset (reticles src1)
     = map (fun i => (ofNat i * 25 + 5, ofNat i * 15 + 10)) (indices 4)
  /\ map initial_x (dataStrings src1) = map initial_x (dataStrings src2)
  /\ map initial_x (dataStrings src1) = [-10; 110; -10; 110]
  /\ map animate_x (dataStrings src1) = [[110]; [-10]; [110]; [-10]]
  /\ map initial_y (dataStrings src1)
     = map (fun i => src1 (2 * i)%nat * 100) (indices 4)
  /\ map duration (dataStrings src1)
     = map (fun i => 30 + src1 (2 * i + 1)%nat * 20) (indices 4).
Proof. repeat split. Qed.

(** C9, as the spec words it, fails: two well-formed generators give
    the first data string different initial heights, [0%] and [50%], so
    the initial offsets are not a function of the index alone. *)
Lemma data_string_height_is_random :
  ~ (forall src1 src2 : source,
        wellFormed src1 -> wellFormed src2 ->
        sameOffsets (initialOffsets src1) (initialOffsets src2)).
Proof.
  intros H.
  assert (W0 : wellFormed allZero) by (intros n; unfold allZero; Lqa.lra).
  assert (W1 : wellFormed allHalf) by (intros n; unfold allHalf; Lqa.lra).
  specialize (H allZero allHalf W0 W1).
  unfold sameOffsets in H.
  set (l1 := initialOffsets allZero) in H. vm_compute in l1.
  set (l2 := initialOffsets allHalf) in H. vm_compute in l2.
  subst l1 l2.
  repeat match goal with
         | H : Forall2 _ (_ :: _) (_ :: _) |- _ =>
             inversion H; clear H; subst
         end.
  repeat match goal with
         | H : _ /\ _ |- _ => destruct H
         end.
  repeat match goal with
         | H : snd _ == snd _ |- _ =>
             vm_compute in H; try discriminate H; clear H
         end.
Qed.

End BackgroundFacts.

(** ** The display on sample traces *)

Module HUDSamples.

Import HUD HUDFacts Samples.
Local Open Scope string_scope.
Local Open Scope Z_scope.

Lemma clock24_valid t : isClock24 (clock24 t).
Proof. exact I. Qed.

(** Two moves around a timer expiry: the second move is shown. *)
Lemma hud_shows_last_pointer_move_sample :
  forallb isSignal moves = true
  /\ exists st,
      instance (run clock24 (mount clock24 0 empty) moves) = Some st
      /\ posX st = "POS_X: 0512" /\ posY st = "POS_Y: 0300".
Proof.
  assert (H : forallb isSignal moves = true) by reflexivity.
  split; [exact H|].
  destruct (hud_shows_last_pointer_move clock24 0 moves H)
    as (st & Hi & _ & _ & _ & _ & _ & Hp).
  exists st. split; [exact Hi|]. apply Hp. reflexivity.
Defined.

(** C3, as the spec words it, fails: a pointer move with a negative
    coordinate is stored and printed as delivered, nothing clamps it to
    zero. *)
Lemma hud_negative_coordinate_not_clamped :
  exists st,
    instance (run clock24 (mount clock24 0 empty) [MouseMove (-5) 300]) = Some st
    /\ coords st = {| x := -5; y := 300 |}
    /\ coords st <> {| x := Z.max 0 (-5); y := Z.max 0 300 |}
    /\ posX st = "POS_X: 00-5"
    /\ posX st <> "POS_X: " ++ padStart (toString (Z.max 0 (-5))) 4 "0".
Proof.
  eexists. split; [reflexivity|].
  split; [reflexivity|]. split; [discriminate|].
  split; [reflexivity|]. discriminate.
Qed.

(** After the unmount the log holds the two calls made while mounted. *)
Lemma hud_subscriptions_torn_down_sample :
  forallb isSignal later = true
  /\ calls (run clock24 (unmount (run clock24 empty mounted)) later)
     = [Tick; HandleMouseMove].
Proof.
  assert (H : forallb isSignal later = true) by reflexivity.
  split; [exact H|].
  destruct (hud_subscriptions_torn_down clock24 mounted later H)
    as (_ & _ & _ & _ & _ & Hc).
  rewrite Hc. reflexivity.
Defined.

(** Mounted at 12:34:56, the display shows that time at once. *)
Lemma hud_clock_initialised_at_mount_sample :
  (forall t, isClock24 (clock24 t))
  /\ forallb isMouseMove [MouseMove 512 300] = true
  /\ exists st,
      instance (run clock24 (mount clock24 45296000 empty) [MouseMove 512 300])
      = Some st
      /\ clock st = "12:34:56".
Proof.
  split; [exact clock24_valid|]. split; [reflexivity|].
  destruct (hud_clock_initialised_at_mount clock24 isClock24 45296000
              [MouseMove 512 300] clock24_valid eq_refl)
    as (st & timer & h & Hi & Hc & _).
  exists st. split; [exact Hi|]. rewrite Hc. reflexivity.
Defined.

(** While the display is mounted its callbacks do run. *)
Example mounted_callbacks_run :
  calls (run clock24 empty mounted) = [Tick; HandleMouseMove].
Proof. reflexivity. Qed.

(** A second mount after an unmount subscribes afresh, with new
    identities. *)
Example remount_subscribes_again :
  let w := run clock24 empty [Mount 0; Unmount; Mount 5000] in
  intervals w = [{| timerId := 1; period := 1000 |}]
  /\ listeners w = [{| eventType := "mousemove"; fn := 1 |}].
Proof. split; reflexivity. Qed.

End HUDSamples.

(** ** Further sample runs *)

Module Examples.

Import Motion Samples.
Local Open Scope Q_scope.

Example opacity_at_nine_tenths : CameraStage.opacity 0.9 == 0.5.
Proof. vm_compute. reflexivity. Qed.

Example scale_at_bottom : CameraStage.scale 1 == 0.8.
Proof. vm_compute. reflexivity. Qed.

Example scale_clamped_above : CameraStage.scale 2 == 0.8.
Proof. vm_compute. reflexivity. Qed.

Example parallax_at_half_scroll :
  Forall2 Qeq (map (fun img => Gallery.yOffset img 0.5) Gallery.images)
          [-25; 40; -15; 60; -30; 20].
Proof. repeat constructor; vm_compute; reflexivity. Qed.

Example reveal_once_on_reentry :
  Gallery.reveals Gallery.viewport 2 inAndOut = 1%nat.
Proof. reflexivity. Qed.

(** Without [once] the same trace would replay the reveal. *)
Example reveal_replayed_without_once :
  Gallery.reveals {| once := false; margin := "-10%" |} 2 inAndOut = 2%nat.
Proof. reflexivity. Qed.

Example intro_calls_back_once :
  FlashIntro.onCompleteCalls [1; 0.5; 0.25; 0.25; 1; 1] = 1%nat
  /\ FlashIntro.onCompleteCalls [1; 0.5; 0.25] = 0%nat.
Proof. split; reflexivity. Qed.

End Examples.

(* ================================================================== *)
(** * Further properties of the page                                    *)
(* ================================================================== *)

(** ** Interpolation outside the breakpoints *)

Module RangeFacts.

Import Motion MotionFacts.
Local Open Scope Q_scope.

Lemma clamp_bounds lo hi v : lo <= hi -> lo <= clamp lo hi v /\ clamp lo hi v <= hi.
Proof.
  intros H. unfold clamp.
  destruct (Qltb_spec hi v); [Lqa.lra|].
  destruct (Qltb_spec v lo); Lqa.lra.
Qed.

Lemma clamp_cases lo hi v :
  lo <= hi ->
  (v < lo /\ clamp lo hi v = lo)
  \/ (lo <= v /\ v <= hi /\ clamp lo hi v = v)
  \/ (hi < v /\ clamp lo hi v = hi).
Proof.
  intros H. unfold clamp.
  destruct (Qltb_spec hi v); [right; right; split; auto|].
  destruct (Qltb_spec v lo); [left; split; auto|].
  right; left. repeat split; Lqa.lra.
Qed.

(** Two breakpoints, any input: the linear piece at the clamped input. *)
Lemma interpolate2_clamped x0 x1 y0 y1 v :
  x0 < x1 ->
  interpolate [x0; x1] [y0; y1] v
  == y0 + (y1 - y0) * ((clamp x0 x1 v - x0) / (x1 - x0)).
Proof.
  intros Hx. unfold interpolate.
  cbn [List.length Nat.eqb nth last rev app andb].
  destruct (Qeq_bool y0 y1) eqn:Ey.
  - apply Qeq_bool_iff in Ey. rewrite Ey. ring.
  - destruct (Qltb_spec x1 x0); [Lqa.lra|].
    cbn [nth last].
    destruct (Qeq_bool x0 x1) eqn:Ex.
    { apply Qeq_bool_iff in Ex. Lqa.lra. }
    cbn [andb interpolator]. unfold mixNumber.
    rewrite progress_eq by assumption. reflexivity.
Qed.

(** Three breakpoints, any input: the piece that holds the clamped
    input. *)
Lemma interpolate3_clamped x0 x1 x2 y0 y1 y2 v :
  x0 < x1 -> x1 < x2 ->
  interpolate [x0; x1; x2] [y0; y1; y2] v
  == if Qltb (clamp x0 x2 v) x1
     then y0 + (y1 - y0) * ((clamp x0 x2 v - x0) / (x1 - x0))
     else y1 + (y2 - y1) * ((clamp x0 x2 v - x1) / (x2 - x1)).
Proof.
  intros H01 H12. unfold interpolate.
  cbn [List.length Nat.eqb nth last rev app andb].
  destruct (Qltb_spec x2 x0); [Lqa.lra|].
  cbn [nth last].
  destruct (Qeq_bool x0 x1) eqn:Ex.
  { apply Qeq_bool_iff in Ex. Lqa.lra. }
  cbn [andb interpolator].
  destruct (Qltb (clamp x0 x2 v) x1);
    unfold mixNumber; rewrite progress_eq by assumption; reflexivity.
Qed.

End RangeFacts.

(** ** The stage at any scroll position *)

Module StageRange.

Import Motion MotionFacts RangeFacts CameraStage.
Local Open Scope Q_scope.

Lemma opacity_clamped p : opacity p == (1 - clamp 0.8 1 p) / 0.2.
Proof.
  unfold opacity, useTransform. rewrite interpolate3_clamped by Lqa.lra.
  assert (L1 : 0 <= 1) by Lqa.lra.
  assert (L2 : 0.8 <= 1) by Lqa.lra.
  destruct (clamp_cases 0 1 p L1) as [[H E]|[(H1 & H2 & E)|[H E]]];
    destruct (clamp_cases 0.8 1 p L2) as [[K F]|[(K1 & K2 & F)|[K F]]];
    try Lqa.lra; rewrite E, F;
    match goal with
    | |- context [Qltb ?a ?b] => destruct (Qltb_spec a b)
    end; try Lqa.lra; field.
Qed.

Lemma scale_clamped p : scale p == 1 - 0.2 * clamp 0 1 p.
Proof.
  unfold scale, useTransform. rewrite interpolate2_clamped by Lqa.lra. field.
Qed.

Lemma rotate_clamped p : rotate p == - (5 * clamp 0 1 p).
Proof.
  unfold rotate, useTransform. rewrite interpolate2_clamped by Lqa.lra. field.
Qed.

Lemma title_clamped p : titleOpacity p == 0.15 - 0.5 * clamp 0 0.3 p.
Proof.
  unfold titleOpacity, useTransform.
  rewrite interpolate2_clamped by Lqa.lra. field.
Qed.

(** X1.  At every scroll position, inside [[0,1]] or not, the stage's
    four parameters are the linear pieces taken at the position clamped
    to the breakpoints; hence the scale stays within [[0.8, 1]], the
    rotation within [[-5, 0]], the vertical offset within [[-50, 0]] and
    the opacity within [[0, 1]]. *)
Theorem stage_parameters_clamped (p : Q) :
  (scale p == 1 - 0.2 * clamp 0 1 p
   /\ rotate p == - (5 * clamp 0 1 p)
   /\ y p == - (50 * clamp 0 1 p)
   /\ opacity p == (1 - clamp 0.8 1 p) / 0.2)
  /\ (0.8 <= scale p /\ scale p <= 1)
  /\ (-5 <= rotate p /\ rotate p <= 0)
  /\ (-50 <= y p /\ y p <= 0)
  /\ (0 <= opacity p /\ opacity p <= 1).
Proof.
  pose proof (scale_clamped p) as Hs.
  pose proof (rotate_clamped p) as Hr.
  assert (Hy : y p == - (50 * clamp 0 1 p)).
  { unfold y, useTransform. rewrite interpolate2_clamped by Lqa.lra. field. }
  pose proof (opacity_clamped p) as Ho.
  assert (Ho' : opacity p == 5 * (1 - clamp 0.8 1 p)) by (rewrite Ho; field).
  destruct (clamp_bounds 0 1 p) as [C0 C1]; [Lqa.lra|].
  destruct (clamp_bounds 0.8 1 p) as [D0 D1]; [Lqa.lra|].
  repeat split; try assumption; Lqa.lra.
Qed.

(** X2.  The background title fades from 0.15 to nothing over the first
    30% of the scroll and stays invisible from there on; as the stage
    itself only starts to fade at 80%, at no scroll position are both
    fades under way: the title is gone or the stage is fully opaque. *)
Theorem title_gone_before_stage_fades (p : Q) :
  titleOpacity p == 0.15 - 0.5 * clamp 0 0.3 p
  /\ (0 <= titleOpacity p /\ titleOpacity p <= 0.15)
  /\ (titleOpacity p == 0 \/ opacity p == 1).
Proof.
  pose proof (title_clamped p) as Ht.
  pose proof (opacity_clamped p) as Ho.
  assert (Ho' : opacity p == 5 * (1 - clamp 0.8 1 p)) by (rewrite Ho; field).
  destruct (clamp_bounds 0 0.3 p) as [C0 C1]; [Lqa.lra|].
  split; [exact Ht|]. split; [Lqa.lra|].
  assert (L1 : 0 <= 0.3) by Lqa.lra.
  assert (L2 : 0.8 <= 1) by Lqa.lra.
  destruct (clamp_cases 0 0.3 p L1) as [[H E]|[(H1 & H2 & E)|[H E]]];
    [| |left; rewrite E in Ht; Lqa.lra];
    right;
    destruct (clamp_cases 0.8 1 p L2) as [[K F]|[(K1 & K2 & F)|[K F]]];
    try Lqa.lra; rewrite F in Ho'; Lqa.lra.
Qed.

End StageRange.

(** ** Threading the generator *)

Module RandomFacts.

Import Random.

Lemma mapM_cons {A B} (f : A -> Rand B) (a : A) (l : list A)
      (src : source) (n : nat) :
  mapM f (a :: l) src n
  = (fst (f a src n) :: fst (mapM f l src (snd (f a src n))),
     snd (mapM f l src (snd (f a src n)))).
Proof.
  cbn [mapM]. unfold bind, ret.
  destruct (f a src n) as [b n1]. cbn [fst snd].
  destruct (mapM f l src n1) as [bs n2]. reflexivity.
Qed.

End RandomFacts.

(** ** The gallery beyond the reveal *)

Module GalleryRange.

Import Motion MotionFacts RangeFacts RandomFacts Gallery GalleryFacts.
Local Open Scope Q_scope.

(** X3.  Whatever the parallax factor of an image record (negative,
    zero or positive) and whatever the scroll position, the card's
    vertical offset is the factor times the position clamped to
    [[0,1]]; for the six images of the gallery it never exceeds 120 in
    absolute value. *)
Theorem parallax_offset_clamped (img : image) (p : Q) :
  yOffset img p == parallax img * clamp 0 1 p
  /\ Forall (fun im => Qabs (yOffset im p) <= 120) images.
Proof.
  assert (H : forall im, yOffset im p == parallax im * clamp 0 1 p).
  { intros im. unfold yOffset, useTransform.
    rewrite interpolate2_clamped by Lqa.lra. field. }
  split; [apply H|].
  destruct (clamp_bounds 0 1 p) as [C0 C1]; [Lqa.lra|].
  unfold images.
  repeat constructor; rewrite H; cbn [parallax];
    apply Qabs_Qle_condition; split; Lqa.lra.
Qed.

Lemma mod3_cases i : (i mod 3 = 0 \/ i mod 3 = 1 \/ i mod 3 = 2)%nat.
Proof. pose proof (Nat.mod_upper_bound i 3). lia. Qed.

Lemma mod2_cases i : (i mod 2 = 0 \/ i mod 2 = 1)%nat.
Proof. pose proof (Nat.mod_upper_bound i 2). lia. Qed.

Lemma mod_succ i n : ((i + 1) mod n = ((i mod n) + 1) mod n)%nat.
Proof. now rewrite Nat.Div0.add_mod_idemp_l. Qed.

(** X4.  The layout classes of a card depend on its index only through
    its remainders by 3 and by 2, so the pattern repeats every six
    cards; neighbouring cards always get different top margins, and any
    three consecutive cards get three different left margins. *)
Theorem card_layout_staggered (size : string) (i : nat) :
  cardClass size (i + 6) = cardClass size i
  /\ nth 4 (cardClass size i) EmptyString
     <> nth 4 (cardClass size (i + 1)) EmptyString
  /\ nth 3 (cardClass size i) EmptyString
     <> nth 3 (cardClass size (i + 1)) EmptyString
  /\ nth 3 (cardClass size (i + 1)) EmptyString
     <> nth 3 (cardClass size (i + 1 + 1)) EmptyString
  /\ nth 3 (cardClass size i) EmptyString
     <> nth 3 (cardClass size (i + 1 + 1)) EmptyString.
Proof.
  unfold cardClass. cbn [nth].
  assert (E3 : ((i + 6) mod 3 = i mod 3)%nat)
    by (replace (i + 6)%nat with (i + 2 * 3)%nat by lia; apply Nat.Div0.mod_add).
  assert (E2 : ((i + 6) mod 2 = i mod 2)%nat)
    by (replace (i + 6)%nat with (i + 3 * 2)%nat by lia; apply Nat.Div0.mod_add).
  rewrite E3, E2. split; [reflexivity|].
  rewrite (mod_succ (i + 1) 3), !(mod_succ i 3), (mod_succ i 2).
  destruct (mod3_cases i) as [-> | [-> | ->]];
    destruct (mod2_cases i) as [-> | ->];
    cbn; repeat split; discriminate.
Qed.

Lemma floor_range (r : Q) (k : Z) :
  0 <= r -> r < 1 -> (0 < k)%Z ->
  (0 <= Qfloor (r * inject_Z k) <= k - 1)%Z.
Proof.
  intros H0 H1 Hk.
  assert (Hq : 0 < inject_Z k)
    by (unfold Qlt; cbn [Qnum Qden inject_Z]; lia).
  assert (Hlo : 0 <= r * inject_Z k) by (apply Qmult_le_0_compat; Lqa.lra).
  assert (Hhi : r * inject_Z k < inject_Z k).
  { setoid_replace (inject_Z k) with (1 * inject_Z k) at 2 by ring.
    apply Qmult_lt_compat_r; assumption. }
  split.
  - change 0%Z with (Qfloor 0). now apply Qfloor_resp_le.
  - pose proof (Qfloor_le (r * inject_Z k)) as Hf.
    assert (Hlt : inject_Z (Qfloor (r * inject_Z k)) < inject_Z k) by Lqa.lra.
    unfold Qlt in Hlt. cbn [Qnum Qden inject_Z] in Hlt. lia.
Qed.

Lemma cardOverlay_draws (src : Random.source) (n : nat) :
  cardOverlay src n
  = ({| refDraw := src n;
        north := Qfloor (src (S n) * 90);
        west := Qfloor (src (S (S n)) * 180) |}, S (S (S n))).
Proof. reflexivity. Qed.

Lemma overlays_in_range (src : Random.source) (l : list image) :
  Random.wellFormed src ->
  forall n,
    Forall inRange (fst (Random.mapM (fun _ : image => cardOverlay) l src n))
    /\ snd (Random.mapM (fun _ : image => cardOverlay) l src n)
       = (n + 3 * List.length l)%nat.
Proof.
  intros Hw. induction l as [|im rest IH]; intros n.
  - cbn. split; [constructor | lia].
  - rewrite mapM_cons, cardOverlay_draws. cbn [fst snd].
    destruct (IH (S (S (S n)))) as [IHf IHs].
    destruct (Random.mapM (fun _ : image => cardOverlay) rest src (S (S (S n))))
      as [os m] eqn:E.
    cbn [fst snd] in *. split.
    + constructor; [|exact IHf]. unfold inRange. cbn [north west].
      destruct (Hw (S n)) as [A0 A1]. destruct (Hw (S (S n))) as [B0 B1].
      split.
      * apply (floor_range (src (S n)) 90 A0 A1). lia.
      * apply (floor_range (src (S (S n))) 180 B0 B1). lia.
    + subst m. cbn [List.length]. lia.
Qed.

(** X5.  With draws of [Math.random] in [[0,1)], every card's overlay
    names a latitude from 0 to 89 and a longitude from 0 to 179, never
    90 or 180; and one render of the overlays takes exactly three draws
    per card, eighteen in all, from wherever the generator stands. *)
Theorem overlay_coordinates_in_range (src : Random.source) (n : nat) :
  Random.wellFormed src ->
  Forall inRange (fst (overlays src n))
  /\ List.length (fst (overlays src n)) = 6%nat
  /\ snd (overlays src n) = (n + 18)%nat.
Proof.
  intros Hw. unfold overlays.
  destruct (overlays_in_range src images Hw n) as [Hf Hs].
  split; [exact Hf|]. split; [reflexivity|]. rewrite Hs. reflexivity.
Qed.

(** Eighteen draws at one half: every card shows 45 north, 90 west. *)
Lemma overlay_coordinates_at_half :
  Random.wellFormed Samples.allHalf
  /\ Forall inRange (fst (overlays Samples.allHalf 0%nat)).
Proof.
  assert (H : Random.wellFormed Samples.allHalf)
    by (intros k; unfold Samples.allHalf; Lqa.lra).
  split; [exact H|].
  exact (proj1 (overlay_coordinates_in_range Samples.allHalf 0%nat H)).
Defined.

End GalleryRange.

(** ** The printed coordinate fields *)

Module FieldFacts.

Import HUD HUDFacts.
Local Open Scope string_scope.

Lemma fill_zeros n : forall cur,
  (cur = "0" \/ cur = "") ->
  fill "0" cur n = string_of_list_ascii (repeat "0"%char n).
Proof.
  induction n as [|n IH]; intros cur Hc; cbn [fill repeat string_of_list_ascii].
  - reflexivity.
  - destruct Hc as [-> | ->]; rewrite IH by auto; reflexivity.
Qed.

Lemma length_zeros n :
  String.length (string_of_list_ascii (repeat "0"%char n)) = n.
Proof. induction n as [|n IH]; cbn; [reflexivity | now rewrite IH]. Qed.

(** X6.  Each coordinate is printed behind as many zeros as it lacks to
    four characters and is never cut: the field ends with the number's
    own decimal string and is as long as the longer of the two, so a
    coordinate of five digits is printed with five. *)
Theorem field_pads_never_truncates (st : state) (z : Z) :
  posX st = "POS_X: " ++ field (x (coords st))
  /\ posY st = "POS_Y: " ++ field (y (coords st))
  /\ field z
     = string_of_list_ascii (repeat "0"%char (4 - String.length (toString z)))
       ++ toString z
  /\ String.length (field z) = Nat.max 4 (String.length (toString z)).
Proof.
  split; [reflexivity|]. split; [reflexivity|].
  unfold field, padStart.
  destruct (Nat.leb_spec 4 (String.length (toString z))) as [L|L].
  - replace (4 - String.length (toString z))%nat with O by lia.
    split; [reflexivity | lia].
  - rewrite fill_zeros by auto. split; [reflexivity|].
    rewrite length_append, length_zeros. lia.
Qed.

Lemma dropZeros_fill n : forall cur s,
  (cur = "0" \/ cur = "") ->
  dropZeros (fill "0" cur n ++ s) = dropZeros s.
Proof.
  induction n as [|n IH]; intros cur s Hc; cbn [fill].
  - reflexivity.
  - destruct Hc as [-> | ->]; cbn [append dropZeros Ascii.eqb Bool.eqb];
      apply IH; auto.
Qed.

(** After the leading zeros of a string of digits comes no minus sign. *)
Lemma digits_no_minus s : forall d,
  NilEmpty.uint_of_string s = Some d ->
  match dropZeros s with
  | String c _ => Ascii.eqb c "-" = false
  | EmptyString => True
  end.
Proof.
  induction s as [|a r IH]; intros d H; cbn [dropZeros].
  - exact I.
  - cbn [NilEmpty.uint_of_string] in H.
    destruct (NilEmpty.uint_of_string r) as [d'|] eqn:E; [|discriminate H].
    destruct (uint_of_char_spec _ _ _ H)
      as [[-> _]|[[-> _]|[[-> _]|[[-> _]|[[-> _]|[[-> _]|[[-> _]|[[-> _]|[[-> _]|[-> _]]]]]]]]]];
      try reflexivity.
    cbn [Ascii.eqb Bool.eqb]. exact (IH d' eq_refl).
Qed.

Lemma readField_digits s n :
  decimalValue s = Some n -> readField s = Some (Z.of_N n).
Proof.
  intros H. unfold readField.
  assert (Hd : exists d, NilEmpty.uint_of_string s = Some d).
  { unfold decimalValue in H.
    destruct (NilEmpty.uint_of_string s) as [d|]; [eauto | discriminate H]. }
  destruct Hd as [d Hd]. pose proof (digits_no_minus s d Hd) as Hm.
  destruct (dropZeros s) as [|c rest].
  - rewrite H. reflexivity.
  - rewrite Hm, H. reflexivity.
Qed.

Lemma toString_neg p :
  toString (Z.neg p) = String "-" (NilZero.string_of_uint (Pos.to_uint p)).
Proof. reflexivity. Qed.

Lemma field_neg p :
  exists n cur,
    (cur = "0" \/ cur = "")
    /\ field (Z.neg p)
       = fill "0" cur n ++ String "-" (NilZero.string_of_uint (Pos.to_uint p)).
Proof.
  unfold field, padStart. rewrite toString_neg.
  destruct (4 <=? _)%nat.
  - exists O, "0". split; [auto | reflexivity].
  - eexists _, "0". split; [auto | reflexivity].
Qed.

Lemma parse_pos p :
  option_map N.of_uint
             (NilEmpty.uint_of_string (NilZero.string_of_uint (Pos.to_uint p)))
  = Some (N.pos p).
Proof.
  pose proof (decimalValue_toString (N.pos p)) as H.
  rewrite toString_of_N in H. exact H.
Qed.

(** X7.  A printed field can be read back: skipping its leading zeros
    and honouring a minus sign returns the coordinate that was printed,
    for every integer.  So two different coordinates are never printed
    as the same text. *)
Theorem field_reads_back (z1 z2 : Z) :
  field z1 = field z2 ->
  z1 = z2 /\ readField (field z1) = Some z1.
Proof.
  assert (R : forall z, readField (field z) = Some z).
  { intros [|p|p].
    - apply (readField_digits _ 0%N). apply (padded_coordinate 0).
    - apply (readField_digits _ (N.pos p)). apply (padded_coordinate (N.pos p)).
    - destruct (field_neg p) as (n & cur & Hc & ->).
      unfold readField. rewrite dropZeros_fill by assumption.
      cbn [dropZeros Ascii.eqb Bool.eqb].
      pose proof (parse_pos p) as H.
      destruct (NilEmpty.uint_of_string (NilZero.string_of_uint (Pos.to_uint p)))
        as [d|]; [|discriminate H].
      cbn [option_map] in *. injection H as ->. reflexivity. }
  intros E. split; [|apply R].
  pose proof (R z1) as H1. rewrite E, R in H1. now injection H1.
Qed.

(** The field of 512 read back. *)
Lemma field_reads_back_512 :
  field 512 = field 512 /\ readField (field 512) = Some 512%Z.
Proof.
  split; [reflexivity|].
  exact (proj2 (field_reads_back 512 512 eq_refl)).
Defined.

(** X8.  A negative coordinate is printed with its minus sign behind the
    padding zeros, as in [00-5], so its field is not a decimal numeral
    at all. *)
Theorem negative_field_is_no_numeral (p : positive) :
  decimalValue (field (Z.neg p)) = None
  /\ exists zeros digits,
      field (Z.neg p) = zeros ++ String "-" digits
      /\ dropZeros zeros = ""
      /\ decimalValue digits = Some (N.pos p).
Proof.
  destruct (field_neg p) as (n & cur & Hc & E). split.
  - rewrite E, decimalValue_fill_zero by assumption.
    unfold decimalValue. cbn [NilEmpty.uint_of_string].
    destruct (NilEmpty.uint_of_string _); reflexivity.
  - exists (fill "0" cur n), (NilZero.string_of_uint (Pos.to_uint p)).
    split; [exact E|]. split.
    + pose proof (dropZeros_fill n cur "" Hc) as H.
      assert (A : forall s, s ++ "" = s)
        by (induction s as [|c s IH]; cbn; [reflexivity | now rewrite IH]).
      rewrite A in H. exact H.
    + apply parse_pos.
Qed.

End FieldFacts.

(** ** Who is called, and what the clock shows *)

Module HUDCalls.

Import HUD HUDFacts.
Local Open Scope string_scope.

Section Clock.

Variable toLocaleTimeString : Z -> string.

Local Abbreviation mount := (HUD.mount toLocaleTimeString).
Local Abbreviation step := (HUD.step toLocaleTimeString).
Local Abbreviation run := (HUD.run toLocaleTimeString).

(** X9.  In every state reachable by mounts, unmounts, timer expiries
    and pointer moves, however often the display was remounted, a
    pointer move calls [handleMouseMove] exactly once while the display
    is mounted and not at all otherwise, and a timer expiry calls the
    clock update exactly once if it is the expiry of the interval the
    mounted display created, and not at all for any other timer id. *)
Theorem callbacks_run_once_per_signal (es : list event) (e : event) :
  let w := run empty es in
  calls (step w e)
  = match e with
    | MouseMove _ _ =>
        match instance w with
        | Some _ => HandleMouseMove :: calls w
        | None => calls w
        end
    | IntervalElapsed id _ =>
        match cleanup w with
        | Some (timer, _) => if Nat.eqb id timer then Tick :: calls w else calls w
        | None => calls w
        end
    | Mount _ | Unmount => calls w
    end.
Proof.
  intros w.
  assert (Hw : subscribed w)
    by (apply run_subscribed, empty_subscribed).
  unfold subscribed in Hw.
  destruct e as [now| |id now|cx cy]; cbn [HUD.step].
  - unfold HUD.mount. destruct (instance w); reflexivity.
  - unfold unmount. destruct (cleanup w) as [[timer h]|]; reflexivity.
  - destruct (instance w); destruct (cleanup w) as [[timer h]|];
      try contradiction; destruct Hw as [Hi _]; rewrite Hi;
      cbn [existsb timerId orb]; [|reflexivity].
    rewrite (Nat.eqb_sym timer id), orb_false_r.
    destruct (Nat.eqb id timer); reflexivity.
  - destruct (instance w); destruct (cleanup w) as [[timer h]|];
      try contradiction; destruct Hw as [_ Hl]; rewrite Hl; reflexivity.
Qed.

Lemma mounted_ticks es : forall w st timer h t0,
  subscribed w -> instance w = Some st -> cleanup w = Some (timer, h) ->
  time st = toLocaleTimeString t0 ->
  forallb isSignal es = true ->
  exists st',
    instance (run w es) = Some st'
    /\ cleanup (run w es) = Some (timer, h)
    /\ time st' = toLocaleTimeString (fold_left (tickAt timer) es t0).
Proof.
  induction es as [|e rest IH]; intros w st timer h t0 Hsub Hi Hc Ht Hs.
  - exists st. auto.
  - cbn [forallb] in Hs. apply andb_true_iff in Hs. destruct Hs as [He Hs].
    cbn [HUD.run fold_left].
    pose proof Hsub as Hsub'. unfold subscribed in Hsub'.
    rewrite Hi, Hc in Hsub'. destruct Hsub' as [Hin Hl].
    destruct e as [now| |id now|cx cy]; try discriminate He.
    + (* a timer comes due *)
      cbn [HUD.step tickAt]. rewrite Hin. cbn [existsb timerId orb].
      rewrite (Nat.eqb_sym timer id), orb_false_r.
      destruct (Nat.eqb id timer) eqn:E.
      * apply (IH _ (setTime (toLocaleTimeString now) st) timer h now);
          try assumption; try reflexivity.
        -- apply update_subscribed. exact Hsub.
        -- cbn [update instance]. now rewrite Hi.
      * apply (IH w st timer h t0); assumption.
    + (* the pointer moves *)
      cbn [HUD.step tickAt]. rewrite Hl, dispatch_single.
      apply (IH _ (setCoords {| x := cx; y := cy |} st) timer h t0);
        try assumption.
      * apply update_subscribed. exact Hsub.
      * cbn [update instance]. now rewrite Hi.
Qed.

(** X10.  While the display stays mounted its clock shows the formatted
    instant of the most recent expiry of its own interval, or of the
    mount when the interval has not yet expired; pointer moves and
    expiries of other timers leave it alone. *)
Theorem clock_shows_last_tick (now : Z) (es : list event) :
  forallb isSignal es = true ->
  exists st,
    instance (run (mount now empty) es) = Some st
    /\ clock st = toLocaleTimeString (lastTick 0 now es).
Proof.
  intros Hs.
  destruct (mount_empty toLocaleTimeString now) as (Hsub & Hi & Hc).
  destruct (mounted_ticks es _ _ O O now Hsub Hi Hc eq_refl Hs)
    as (st & Hst & _ & Ht).
  exists st. split; [exact Hst | exact Ht].
Qed.

End Clock.

(** Mounted at noon, ticked at 12:00:01 and by a foreign timer later. *)
Lemma clock_shows_last_tick_sample :
  forallb isSignal
          [IntervalElapsed 0 43201000; MouseMove 3 4; IntervalElapsed 7 50000000]
  = true
  /\ exists st,
      instance (run Samples.clock24 (mount Samples.clock24 43200000 empty)
                    [IntervalElapsed 0 43201000; MouseMove 3 4;
                     IntervalElapsed 7 50000000]) = Some st
      /\ clock st = "12:00:01".
Proof.
  split; [reflexivity|].
  destruct (clock_shows_last_tick Samples.clock24 43200000
              [IntervalElapsed 0 43201000; MouseMove 3 4;
               IntervalElapsed 7 50000000] eq_refl) as (st & Hi & Hc).
  exists st. split; [exact Hi|]. rewrite Hc. reflexivity.
Defined.

End HUDCalls.

(** ** The background motifs in motion *)

Module BackgroundRange.

Import Random RandomFacts BackgroundElements.
Local Open Scope Q_scope.





(** X12.  Every aperture glyph, whatever its index, starts its drift
    where it was placed and ends 30% further right and 30% further
    down, every focus reticle 20% and 20%; each next glyph takes 5 s
    longer and each next reticle 4 s longer; and all keyframes of the
    three glyphs and four reticles that are rendered lie on the screen,
    between 0% and 100%. *)
Theorem motifs_drift_on_screen (i : nat) (src : source) :
  (hd 0 (animate_x (aperture i)) = initial_x (aperture i)
   /\ hd 0 (animate_y (aperture i)) = initial_y (aperture i)
   /\ last (animate_x (aperture i)) 0 == initial_x (aperture i) + 30
   /\ last (animate_y (aperture i)) 0 == initial_y (aperture i) + 30
   /\ duration (aperture (S i)) == duration (aperture i) + 5)
  /\ (hd 0 (animate_x (focus i)) = initial_x (focus i)
      /\ hd 0 (animate_y (focus i)) = initial_y (focus i)
      /\ last (animate_x (focus i)) 0 == initial_x (focus i) + 20
      /\ last (animate_y (focus i)) 0 == initial_y (focus i) + 20
      /\ duration (focus (S i)) == duration (focus i) + 4)
  /\ Forall onScreen (apertures src ++ reticles src).
Proof.
  assert (E : ofNat (S i) == ofNat i + 1).
  { unfold ofNat. rewrite Nat2Z.inj_succ, <- Z.add_1_r, inject_Z_plus.
    reflexivity. }
  split; [|split].
  - cbn [aperture animate_x animate_y initial_x initial_y duration hd last].
    repeat split; try reflexivity; try ring. rewrite E. ring.
  - cbn [focus animate_x animate_y initial_x initial_y duration hd last].
    repeat split; try reflexivity; try ring. rewrite E. ring.
  - unfold apertures, reticles, run, render, bind, ret.
    destruct (mapM data (indices 4) src 0%nat) as [ds m].
    cbn [fst snd indices seq map app].
    repeat constructor; vm_compute; discriminate.
Qed.



End BackgroundRange.

(** ** The intro layer between mount and completion *)

Module FlashIntroRange.

Import Motion MotionFacts FlashIntro FlashIntroFacts.
Local Open Scope Q_scope.

(** X14.  The icon of the intro starts invisible at scale 0.8 and has
    reached full opacity and scale 1.2 after 0.4 s, before the layer
    around it begins to fade at 0.5 s: from 0.4 s to 0.5 s after mount
    icon and layer are both fully shown. *)
Theorem icon_shown_before_fade (easeOut : Q -> Q) (t : Q) :
  0.4 <= t -> t <= 0.5 ->
  (zapOpacity easeOut 0 == 0 /\ zapScale easeOut 0 == 0.8)
  /\ zapOpacity easeOut t == 1
  /\ zapScale easeOut t == 1.2
  /\ opacity easeOut t == 1.
Proof.
  intros H1 H2.
  split; [split; reflexivity|].
  unfold zapOpacity, zapScale, opacity, tween, finished, zapTransition, transition.
  cbn [delay duration].
  destruct (Qle_bool_spec t 0); [Lqa.lra|].
  destruct (Qle_bool_spec (0 + 0.4) t); [|Lqa.lra].
  destruct (Qle_bool_spec t 0.5); [|Lqa.lra].
  repeat split; reflexivity.
Qed.

(** At 0.45 s. *)
Lemma icon_shown_before_fade_sample :
  0.4 <= 0.45 /\ 0.45 <= 0.5
  /\ zapOpacity (fun q => q) 0.45 == 1 /\ opacity (fun q => q) 0.45 == 1.
Proof.
  assert (A : 0.4 <= 0.45) by Lqa.lra.
  assert (B : 0.45 <= 0.5) by Lqa.lra.
  split; [exact A|]. split; [exact B|].
  destruct (icon_shown_before_fade (fun q => q) 0.45 A B) as (_ & Hz & _ & Ho).
  split; assumption.
Defined.

Section Easing.

Variable easeOut : Q -> Q.

Hypothesis ease_range :
  forall q, 0 <= q -> q <= 1 -> 0 <= easeOut q /\ easeOut q <= 1.
Hypothesis ease_monotone :
  forall a b, 0 <= a -> a <= b -> b <= 1 -> easeOut a <= easeOut b.

(** The three stretches of the layer's opacity. *)
Lemma opacity_cases t :
  (t <= 0.5 /\ opacity easeOut t = 1)
  \/ (0.5 < t /\ t < 2
      /\ opacity easeOut t == 1 - easeOut ((t - 0.5) / 1.5))
  \/ (2 <= t /\ opacity easeOut t = 0).
Proof.
  unfold opacity, tween, transition, initial_opacity, animate_opacity.
  cbn [delay duration]. unfold finished. cbn [delay duration].
  destruct (Qle_bool_spec t 0.5); [left; split; [assumption|reflexivity]|].
  destruct (Qle_bool_spec (0.5 + 1.5) t).
  - right; right. split; [Lqa.lra | reflexivity].
  - right; left. split; [Lqa.lra|]. split; [Lqa.lra|].
    unfold mixNumber. ring.
Qed.

Lemma played_fraction t :
  0.5 < t -> t < 2 -> 0 <= (t - 0.5) / 1.5 /\ (t - 0.5) / 1.5 <= 1.
Proof.
  intros H1 H2.
  assert (E : (t - 0.5) / 1.5 == (t - 0.5) * (2 # 3)) by field.
  rewrite E. split; Lqa.lra.
Qed.

Lemma played_fraction_le t1 t2 :
  t1 <= t2 -> (t1 - 0.5) / 1.5 <= (t2 - 0.5) / 1.5.
Proof.
  intros H.
  assert (E1 : (t1 - 0.5) / 1.5 == (t1 - 0.5) * (2 # 3)) by field.
  assert (E2 : (t2 - 0.5) / 1.5 == (t2 - 0.5) * (2 # 3)) by field.
  rewrite E1, E2. Lqa.lra.
Qed.

Lemma opacity_bounds t : 0 <= opacity easeOut t /\ opacity easeOut t <= 1.
Proof.
  destruct (opacity_cases t) as [[_ E]|[(H1 & H2 & E)|[_ E]]];
    rewrite E; try (split; Lqa.lra).
  destruct (played_fraction t H1 H2) as [P0 P1].
  destruct (ease_range _ P0 P1). split; Lqa.lra.
Qed.

(** X15.  With an easing curve that maps [[0,1]] into itself and never
    falls, the layer's opacity stays between 0 and 1 at all times and
    never rises again: later in time it is at most what it was. *)
Theorem opacity_only_falls (t1 t2 : Q) :
  t1 <= t2 ->
  opacity easeOut t2 <= opacity easeOut t1
  /\ (0 <= opacity easeOut t1 /\ opacity easeOut t1 <= 1).
Proof.
  intros H. split; [|apply opacity_bounds].
  destruct (opacity_bounds t1) as [A0 A1].
  destruct (opacity_bounds t2) as [B0 B1].
  destruct (opacity_cases t1) as [[K1 E1]|[(K1 & K1' & E1)|[K1 E1]]].
  - rewrite E1. exact B1.
  - destruct (opacity_cases t2) as [[K2 E2]|[(K2 & K2' & E2)|[K2 E2]]].
    + Lqa.lra.
    + rewrite E1, E2.
      destruct (played_fraction t1 K1 K1') as [P0 P1].
      destruct (played_fraction t2 K2 K2') as [R0 R1].
      pose proof (ease_monotone _ _ P0 (played_fraction_le t1 t2 H) R1).
      Lqa.lra.
    + rewrite E2. exact A0.
  - destruct (opacity_cases t2) as [[K2 E2]|[(K2 & K2' & E2)|[K2 E2]]];
      try Lqa.lra.
    rewrite E1, E2. Lqa.lra.
Qed.

End Easing.

(** A linear easing between 1 s and 1.5 s after mount. *)
Lemma opacity_only_falls_linear :
  1 <= 1.5 /\ opacity (fun q => q) 1.5 <= opacity (fun q => q) 1.
Proof.
  assert (H : 1 <= 1.5) by Lqa.lra.
  split; [exact H|].
  refine (proj1 (opacity_only_falls (fun q => q) _ _ 1 1.5 H)).
  - intros q A B. split; assumption.
  - intros a b _ A _. exact A.
Defined.

End FlashIntroRange.

(** ** Scale against rotation under the spring *)

Module SpringLockstep.

Import Spring SpringFacts CameraStage CameraStageSpring.
Local Open Scope R_scope.

(** The spring's output is affine in where it starts, how fast, and
    where it is headed. *)
Lemma springValue_affine k c m done a b origin target v0 t :
  springValue k c m (a * origin + b) (a * target + b) (a * v0) done t
  = a * springValue k c m origin target v0 done t + b.
Proof.
  unfold springValue. destruct (done t); [reflexivity|].
  unfold resolveSpring.
  destruct (Rlt_dec (dampingRatio k c m) 1);
    [|destruct (Req_dec_T (dampingRatio k c m) 1)].
  - unfold underdamped, initialDelta. cbv zeta. unfold Rdiv.
    generalize (exp (- (dampingRatio k c m * undampedAngularFreq k m * t))).
    generalize (/ (undampedAngularFreq k m
                   * sqrt (1 - dampingRatio k c m * dampingRatio k c m))).
    generalize (sin (undampedAngularFreq k m
                     * sqrt (1 - dampingRatio k c m * dampingRatio k c m) * t)).
    generalize (cos (undampedAngularFreq k m
                     * sqrt (1 - dampingRatio k c m * dampingRatio k c m) * t)).
    generalize (dampingRatio k c m * undampedAngularFreq k m).
    intros; clear; ring.
  - unfold Spring.criticallyDamped, initialDelta.
    generalize (exp (- (undampedAngularFreq k m * t))).
    generalize (undampedAngularFreq k m).
    intros; clear; ring.
  - unfold overdamped, initialDelta. cbv zeta. unfold Rdiv.
    generalize (exp (- (dampingRatio k c m * undampedAngularFreq k m * t))).
    generalize (sinh (Rmin (undampedAngularFreq k m
                            * sqrt (dampingRatio k c m * dampingRatio k c m - 1)
                            * t) 300)).
    generalize (cosh (Rmin (undampedAngularFreq k m
                            * sqrt (dampingRatio k c m * dampingRatio k c m - 1)
                            * t) 300)).
    generalize (/ (undampedAngularFreq k m
                   * sqrt (dampingRatio k c m * dampingRatio k c m - 1))).
    generalize (undampedAngularFreq k m
                * sqrt (dampingRatio k c m * dampingRatio k c m - 1)).
    generalize (dampingRatio k c m * undampedAngularFreq k m).
    intros; clear; ring.
Qed.

Lemma rotate_of_scale (p : Q) :
  Q2R (rotate p) = 25 * Q2R (scale p) + - 25.
Proof.
  assert (E : (rotate p == 25 * scale p + - (25))%Q).
  { rewrite StageRange.rotate_clamped, StageRange.scale_clamped. ring. }
  rewrite (Qeq_eqR _ _ E), Q2R_plus, Q2R_mult, Q2R_opp.
  replace (Q2R 25) with 25 by (unfold Q2R; simpl; lra). reflexivity.
Qed.

(** X16.  Scale and rotation are driven by the same spring options and
    their raw values are tied by [rotate = 25 * (scale - 1)]; so when
    the two springs start in states tied the same way and are in the
    same phase (both moving or both at rest), the smoothed rotation is
    25 times the smoothed scale minus 25 at every instant: the two ease
    in lockstep. *)
Theorem rotation_follows_scale
        (p : Q) (doneScale doneRotate : R -> bool)
        (origin initialVelocity t : R) :
  doneScale t = doneRotate t ->
  springRotate p doneRotate (25 * origin + - 25) (25 * initialVelocity) t
  = 25 * springScale p doneScale origin initialVelocity t + - 25.
Proof.
  intros Hd. unfold springRotate, springScale, useSpring.
  rewrite rotate_of_scale, springValue_affine.
  unfold springValue. rewrite Hd. reflexivity.
Qed.

(** Both springs released at rest from the top of the page. *)
Lemma rotation_follows_scale_sample :
  (fun _ : R => false) 1 = (fun _ : R => false) 1
  /\ springRotate (1 # 2) (fun _ => false) (25 * 1 + - 25) (25 * 0) 1
     = 25 * springScale (1 # 2) (fun _ => false) 1 0 1 + - 25.
Proof.
  split; [reflexivity|].
  exact (rotation_follows_scale (1 # 2) (fun _ => false) (fun _ => false)
                                1 0 1 eq_refl).
Defined.

End SpringLockstep.

(** ** The stage's text blocks *)

Module StageBlocks.

Import Motion CameraStage.

Lemma blockRun_cons b rest s :
  blockRun (b :: rest) s
  = (fst (blockRun rest (fst (onIntersectionUpdate blockViewport b s))),
     ((if snd (onIntersectionUpdate blockViewport b s) then 1 else 0)
      + snd (blockRun rest (fst (onIntersectionUpdate blockViewport b s))))%nat).
Proof.
  cbn [blockRun]. destruct (onIntersectionUpdate blockViewport b s) as [s1 st].
  cbn [fst snd]. destruct (blockRun rest s1) as [s2 n]. reflexivity.
Qed.

Lemma last_cons {A} (l : list A) : forall a d, last (a :: l) d = last l a.
Proof.
  induction l as [|c r IH]; intros a d; [reflexivity|].
  change (last (a :: c :: r) d) with (last (c :: r) d).
  now rewrite !IH.
Qed.

Lemma blockRun_entries reports : forall s,
  whileInViewActive s = isInView s ->
  snd (blockRun reports s) = entries (isInView s) reports
  /\ whileInViewActive (fst (blockRun reports s)) = last reports (isInView s)
  /\ isInView (fst (blockRun reports s)) = last reports (isInView s).
Proof.
  induction reports as [|b rest IH]; intros s Hs.
  - cbn. auto.
  - rewrite blockRun_cons. cbn [fst snd entries].
    assert (Hu : whileInViewActive (fst (onIntersectionUpdate blockViewport b s))
                 = isInView (fst (onIntersectionUpdate blockViewport b s))
                 /\ isInView (fst (onIntersectionUpdate blockViewport b s)) = b
                 /\ snd (onIntersectionUpdate blockViewport b s)
                    = (b && negb (isInView s))%bool).
    { unfold onIntersectionUpdate, blockViewport. cbn [once andb].
      destruct s as [iv he ac]. cbn in *. subst ac.
      destruct iv, b; cbn; auto. }
    destruct Hu as (H1 & H2 & H3).
    destruct (IH _ H1) as (I1 & I2 & I3).
    rewrite I1, I2, I3, H2, H3, !last_cons. repeat split.
Qed.

Lemma entries_in_out_in reports : forall prev,
  entries prev (reports ++ [true; false; true])
  = (entries prev reports + (if last reports prev then 1 else 2))%nat.
Proof.
  induction reports as [|b rest IH]; intros prev.
  - cbn. destruct prev; reflexivity.
  - cbn [app entries]. rewrite IH, last_cons. lia.
Qed.

(** X17.  A text block of the stage, having no [once], replays its
    entrance: over any sequence of viewport reports its transition is
    started once for every entry (every report of being in view that
    follows being out of view), and afterwards the block shows its
    [whileInView] target exactly if the last report had it in view.  A
    block that enters, leaves and enters again is revealed twice. *)
Theorem stage_blocks_replay (reports : list bool) :
  snd (blockRun reports notInView) = entries false reports
  /\ whileInViewActive (fst (blockRun reports notInView)) = last reports false
  /\ snd (blockRun (reports ++ [true; false; true])%list notInView)
     = (entries false reports
        + (if last reports false then 1 else 2))%nat.
Proof.
  destruct (blockRun_entries reports notInView eq_refl) as (H1 & H2 & _).
  split; [exact H1|]. split; [exact H2|].
  destruct (blockRun_entries (reports ++ [true; false; true]) notInView eq_refl)
    as (K & _). rewrite K. apply entries_in_out_in.
Qed.

End StageBlocks.
